(** * Local-AI-Server: the queue service

    A shallow embedding of [services/queue]: the job record ([job.hpp]),
    the in-memory two-lane priority queue ([priority_queue.hpp],
    [priority_queue.cpp]) and the HTTP handler on top of it ([main.cpp]),
    followed by the properties of the dispatch policy, of the operator
    controls and of the wire protocol.

    Conventions.  A [std::deque<Job>] is a [list Job] whose head is the
    front of the deque; [std::unordered_map<std::string, Job>] is a
    [gmap string Job]; [std::unordered_set<std::string>] is a
    [gset string].  Every queue operation runs under the one mutex of the
    queue object, so an operation is a function from the state before to
    the result and the state after. *)

From Stdlib Require Import ZArith String List.
From stdpp Require Import gmap strings list fin_maps.

Local Open Scope string_scope.
Local Open Scope list_scope.

(** ** job.hpp *)

Record Job := mkJob {
  id : string;
  agent : string;
  model : string;
  priority : string;
  payload : string
}.

#[global] Instance Job_eq_dec : EqDecision Job.
Proof. solve_decision. Defined.

(** ** priority_queue.hpp *)

Record QueueSnapshot := mkQueueSnapshot {
  snap_high : list Job;
  snap_low : list Job;
  snap_inflight : list Job
}.

Record PeekInfo := mkPeekInfo {
  job : Job;
  lane : string;
  position : nat
}.

Record InMemoryPriorityQueue := mkQueue {
  high_ : list Job;
  low_ : list Job;
  inflight_ : gmap string Job
}.

Definition empty_queue : InMemoryPriorityQueue := mkQueue [] [] ∅.

(** ** priority_queue.cpp *)

Module Deque.

(** The loop [for (it = q.begin(); it != q.end(); ++it) if (it->agent == a)]
    that every per-agent operation starts with: the index and the job of
    the first element addressed to [a], counting from [i]. *)
Fixpoint scan_from (a : string) (q : list Job) (i : nat) : option (nat * Job) :=
  match q with
  | [] => None
  | j :: q' =>
      if String.eqb (agent j) a then Some (i, j) else scan_from a q' (S i)
  end.

Definition scan (a : string) (q : list Job) : option (nat * Job) :=
  scan_from a q 0.

(** [q.erase(it)] for the iterator at index [i]. *)
Definition erase (i : nat) (q : list Job) : list Job := delete i q.

Definition push_back (j : Job) (q : list Job) : list Job := q ++ [j].

Definition push_front (j : Job) (q : list Job) : list Job := j :: q.

(** [q.erase(std::remove_if(q.begin(), q.end(), pred), q.end())] with
    [pred j = (j.agent == a)]: the other jobs stay, in their order. *)
Fixpoint remove_if_agent (a : string) (q : list Job) : list Job :=
  match q with
  | [] => []
  | j :: q' =>
      if String.eqb (agent j) a then remove_if_agent a q'
      else j :: remove_if_agent a q'
  end.

End Deque.

(** [inflight_.emplace(key, j)]: an entry already stored under [key] is
    kept and the new one is dropped. *)
Definition emplace (key : string) (j : Job) (m : gmap string Job) : gmap string Job :=
  match m !! key with
  | Some _ => m
  | None => <[key := j]> m
  end.

Definition enqueue (j : Job) (s : InMemoryPriorityQueue) : Job * InMemoryPriorityQueue :=
  if String.eqb (priority j) "high"
  then (j, mkQueue (Deque.push_back j (high_ s)) (low_ s) (inflight_ s))
  else (j, mkQueue (high_ s) (Deque.push_back j (low_ s)) (inflight_ s)).

(** The lambda [pop_from] of [dequeue_for_agent]: the lane it is given
    and the inflight table are both updated when a job is found. *)
Definition pop_from (a : string) (q : list Job) (infl : gmap string Job)
  : option (Job * list Job * gmap string Job) :=
  match Deque.scan a q with
  | Some (i, j) => Some (j, Deque.erase i q, emplace (id j) j infl)
  | None => None
  end.

Definition dequeue_for_agent (a : string) (s : InMemoryPriorityQueue)
  : option Job * InMemoryPriorityQueue :=
  match pop_from a (high_ s) (inflight_ s) with
  | Some (j, h, infl) => (Some j, mkQueue h (low_ s) infl)
  | None =>
      match pop_from a (low_ s) (inflight_ s) with
      | Some (j, l, infl) => (Some j, mkQueue (high_ s) l infl)
      | None => (None, s)
      end
  end.

(** [ok] and the detail string are accepted and dropped. *)
Definition complete (key : string) (ok : bool) (result_or_error : string)
    (s : InMemoryPriorityQueue) : InMemoryPriorityQueue :=
  mkQueue (high_ s) (low_ s) (delete key (inflight_ s)).

(** The inflight jobs come in the iteration order of the table, which the
    container leaves open; [map_to_list] fixes one. *)
Definition snapshot (s : InMemoryPriorityQueue) : QueueSnapshot :=
  mkQueueSnapshot (high_ s) (low_ s) ((map_to_list (inflight_ s)).*2).

(** The lambda [remove_from] of [cancel_queued_for_agent]. *)
Definition remove_from (a : string) (q : list Job) : nat * list Job :=
  let before := length q in
  let q' := Deque.remove_if_agent a q in
  (before - length q', q').

Definition cancel_queued_for_agent (a : string) (s : InMemoryPriorityQueue)
  : nat * InMemoryPriorityQueue :=
  let '(n1, h) := remove_from a (high_ s) in
  let '(n2, l) := remove_from a (low_ s) in
  (0 + n1 + n2, mkQueue h l (inflight_ s)).

Definition peek_for_agent (a : string) (s : InMemoryPriorityQueue) : option PeekInfo :=
  match Deque.scan a (high_ s) with
  | Some (i, j) => Some (mkPeekInfo j "high" i)
  | None =>
      match Deque.scan a (low_ s) with
      | Some (i, j) => Some (mkPeekInfo j "low" i)
      | None => None
      end
  end.

Definition skip_next_for_agent (a : string) (s : InMemoryPriorityQueue)
  : bool * InMemoryPriorityQueue :=
  match Deque.scan a (high_ s) with
  | Some (i, j) =>
      (true, mkQueue (Deque.push_back j (Deque.erase i (high_ s))) (low_ s) (inflight_ s))
  | None =>
      match Deque.scan a (low_ s) with
      | Some (i, j) =>
          (true, mkQueue (high_ s) (Deque.push_back j (Deque.erase i (low_ s))) (inflight_ s))
      | None => (false, s)
      end
  end.

Definition bring_forward_for_agent (a : string) (s : InMemoryPriorityQueue)
  : bool * InMemoryPriorityQueue :=
  match Deque.scan a (high_ s) with
  | Some (i, j) =>
      (true, mkQueue (Deque.push_front j (Deque.erase i (high_ s))) (low_ s) (inflight_ s))
  | None =>
      match Deque.scan a (low_ s) with
      | Some (i, j) =>
          (true, mkQueue (Deque.push_front j (high_ s)) (Deque.erase i (low_ s)) (inflight_ s))
      | None => (false, s)
      end
  end.

(** ** main.cpp: the JSON values the handler builds and reads

    [nlohmann::json] is a library the service links against.  Its values
    are modelled by [json]; its parser, its printer and the text of its
    exceptions are parameters of the handler (see [Section Handler]). *)

#[warnings="-register-all"]
Inductive json :=
| JNull
| JBool (b : bool)
| JNum (n : Z)
| JStr (s : string)
| JArr (items : list json)
| JObj (fields : list (string * json)).

Inductive json_exception := parse_error | type_error | out_of_range.

(** Code that may throw: [inl e] is an exception on its way to the
    [catch] of the handler. *)
Definition throws (A : Type) : Type := json_exception + A.

Definition ret {A} (x : A) : throws A := inr x.
Definition throw {A} (e : json_exception) : throws A := inl e.
Definition bind {A B} (c : throws A) (k : A → throws B) : throws B :=
  match c with
  | inl e => inl e
  | inr x => k x
  end.

Notation "x <~ c ;; k" := (bind c (fun x => k))
  (at level 100, c at next level, right associativity).

Module Json.

Fixpoint find (key : string) (fields : list (string * json)) : option json :=
  match fields with
  | [] => None
  | (k, v) :: rest => if String.eqb k key then Some v else find key rest
  end.

(** [v.get<std::string>()] *)
Definition get_string (v : json) : throws string :=
  match v with
  | JStr s => ret s
  | _ => throw type_error
  end.

(** [j.at(key)] *)
Definition at_ (j : json) (key : string) : throws json :=
  match j with
  | JObj fields =>
      match find key fields with
      | Some v => ret v
      | None => throw out_of_range
      end
  | _ => throw type_error
  end.

(** [j.value(key, default)] at type [std::string] *)
Definition value_string (j : json) (key : string) (default : string) : throws string :=
  match j with
  | JObj fields =>
      match find key fields with
      | Some v => get_string v
      | None => ret default
      end
  | _ => throw type_error
  end.

(** [j.value(key, default)] at type [json] *)
Definition value_json (j : json) (key : string) (default : json) : throws json :=
  match j with
  | JObj fields =>
      match find key fields with
      | Some v => ret v
      | None => ret default
      end
  | _ => throw type_error
  end.

Definition of_size (n : nat) : json := JNum (Z.of_nat n).

End Json.

(** ** main.cpp: the handler *)

Record ConnInfo := mkConnInfo {
  method : string;
  url : string;
  body : string
}.

Record Response := mkResponse {
  status : nat;
  content : string;
  ctype : string
}.

Definition MHD_HTTP_OK : nat := 200.
Definition MHD_HTTP_NO_CONTENT : nat := 204.
Definition MHD_HTTP_BAD_REQUEST : nat := 400.
Definition MHD_HTTP_NOT_FOUND : nat := 404.

(** The two globals of [main.cpp]. *)
Record Server := mkServer {
  g_queue : InMemoryPriorityQueue;
  g_paused_agents : gset string
}.

(** Per-agent counters of the [/stats] route. *)
Record AgentMetrics := mkAgentMetrics {
  queued_high : nat;
  queued_low : nat;
  inflight : nat
}.

Section Handler.

(** [json::parse], [json::dump] and [std::exception::what].  The printer
    is total: what the handler prints comes out of the parser or of
    [gen_id], or is an agent name of the query, taken to be valid UTF-8
    like them. *)
Variable json_parse : string → option json.
Variable json_dump : json → string.
Variable what : json_exception → string.

Definition parse (text : string) : throws json :=
  match json_parse text with
  | Some j => ret j
  | None => throw parse_error
  end.

Definition send_response (st : nat) (text : string) : Response :=
  mkResponse st text "application/json".

Definition send_no_content : Response :=
  mkResponse MHD_HTTP_NO_CONTENT "" "text/plain".

(** The query arguments of the connection, as [parse_query] collects
    them, are the connection itself here. *)
Definition parse_query (connection : gmap string string) : gmap string string :=
  connection.

Definition agent_required : Response :=
  send_response MHD_HTTP_BAD_REQUEST
    (json_dump (JObj [("error", JStr "agent query parameter required")])).

(** The test [it == q.end() || it->second.empty()] shared by the routes
    that take [?agent=]. *)
Definition agent_arg (q : gmap string string) : option string :=
  match q !! "agent" with
  | Some a => if String.eqb a "" then None else Some a
  | None => None
  end.

Definition job_json (j : Job) : throws json :=
  p <~ parse (payload j) ;;
  ret (JObj [("id", JStr (id j)); ("agent", JStr (agent j));
             ("model", JStr (model j)); ("priority", JStr (priority j));
             ("payload", p)]).

(** The lambda [push_job] of the [/stats] route. *)
Definition push_job (j : Job) (ln : string)
    (acc : list json * gmap string AgentMetrics)
  : throws (list json * gmap string AgentMetrics) :=
  jj <~ job_json j ;;
  let '(arr, by_agent) := acc in
  let m := default (mkAgentMetrics 0 0 0) (by_agent !! agent j) in
  let m' :=
    if String.eqb ln "high" then mkAgentMetrics (queued_high m + 1) (queued_low m) (inflight m)
    else if String.eqb ln "low" then mkAgentMetrics (queued_high m) (queued_low m + 1) (inflight m)
    else if String.eqb ln "inflight" then mkAgentMetrics (queued_high m) (queued_low m) (inflight m + 1)
    else m in
  ret (arr ++ [jj], <[agent j := m']> by_agent).

Fixpoint push_jobs (js : list Job) (ln : string)
    (acc : list json * gmap string AgentMetrics)
  : throws (list json * gmap string AgentMetrics) :=
  match js with
  | [] => ret acc
  | j :: rest => acc' <~ push_job j ln acc ;; push_jobs rest ln acc'
  end.

Definition metrics_json (m : AgentMetrics) : json :=
  JObj [("queued_high", Json.of_size (queued_high m));
        ("queued_low", Json.of_size (queued_low m));
        ("inflight", Json.of_size (inflight m))].

Definition stats (q : InMemoryPriorityQueue) : throws Response :=
  let s := snapshot q in
  r1 <~ push_jobs (snap_high s) "high" ([], ∅) ;;
  r2 <~ push_jobs (snap_low s) "low" ([], r1.2) ;;
  r3 <~ push_jobs (snap_inflight s) "inflight" ([], r2.2) ;;
  let '(high, low, infl, by_agent) := (r1.1, r2.1, r3.1, r3.2) in
  let metrics :=
    JObj [("queued_high", Json.of_size (length high));
          ("queued_low", Json.of_size (length low));
          ("inflight", Json.of_size (length infl));
          ("by_agent", JObj (prod_map (λ a, a) metrics_json <$> map_to_list by_agent))] in
  ret (send_response MHD_HTTP_OK
         (json_dump (JObj [("queues", JObj [("high", JArr high); ("low", JArr low)]);
                           ("inflight", JArr infl); ("metrics", metrics)]))).

(** The body of a [POST /enqueue] turned into a job; [minted] is what
    [gen_id()] returned for this request. *)
Definition job_of_body (minted : string) (text : string) : throws Job :=
  j <~ parse text ;;
  i <~ Json.value_string j "id" minted ;;
  a <~ (v <~ Json.at_ j "agent" ;; Json.get_string v) ;;
  m <~ (v <~ Json.at_ j "model" ;; Json.get_string v) ;;
  p <~ Json.value_string j "priority" "low" ;;
  pl <~ Json.value_json j "payload" (JObj []) ;;
  ret (mkJob i a m p (json_dump pl)).

(** The status of a [POST /complete/{id}] body: [(ok, detail)]. *)
Definition completion_of_body (text : string) : throws (bool * string) :=
  j <~ parse text ;;
  st <~ Json.value_string j "status" "ok" ;;
  detail <~ Json.value_string j "error" "" ;;
  ret (String.eqb st "ok", detail).

(** The [try] block of [handler], once the request is complete: what it
    returns or throws, and the state it leaves. *)
Definition handler_try (minted : string) (connection : gmap string string)
    (ci : ConnInfo) (s : Server) : throws Response * Server :=
  let path := url ci in
  let route m p := String.eqb (method ci) m && String.eqb path p in
  let with_agent (k : string → throws Response * Server) :=
    match agent_arg (parse_query connection) with
    | None => (ret agent_required, s)
    | Some a => k a
    end in
  if route "POST" "/enqueue" then
    match job_of_body minted (body ci) with
    | inl e => (throw e, s)
    | inr jb =>
        let '(_, q) := enqueue jb (g_queue s) in
        (ret (send_response MHD_HTTP_OK (json_dump (JObj [("id", JStr (id jb))]))),
         mkServer q (g_paused_agents s))
    end
  else if route "GET" "/dequeue" then
    with_agent (λ a,
      if bool_decide (a ∈ g_paused_agents s) then (ret send_no_content, s)
      else
        match dequeue_for_agent a (g_queue s) with
        | (None, q) => (ret send_no_content, mkServer q (g_paused_agents s))
        | (Some jb, q) =>
            (out <~ job_json jb ;; ret (send_response MHD_HTTP_OK (json_dump out)),
             mkServer q (g_paused_agents s))
        end)
  else if route "GET" "/stats" then
    (stats (g_queue s), s)
  else if route "POST" "/control/pause" then
    with_agent (λ a,
      (ret (send_response MHD_HTTP_OK (json_dump (JObj [("ok", JBool true)]))),
       mkServer (g_queue s) ({[a]} ∪ g_paused_agents s)))
  else if route "POST" "/control/resume" then
    with_agent (λ a,
      (ret (send_response MHD_HTTP_OK (json_dump (JObj [("ok", JBool true)]))),
       mkServer (g_queue s) (g_paused_agents s ∖ {[a]})))
  else if route "GET" "/control/state" then
    (ret (send_response MHD_HTTP_OK
            (json_dump (JObj [("paused", JArr (JStr <$> elements (g_paused_agents s)))]))),
     s)
  else if route "DELETE" "/jobs" then
    with_agent (λ a,
      let '(removed, q) := cancel_queued_for_agent a (g_queue s) in
      (ret (send_response MHD_HTTP_OK (json_dump (JObj [("removed", Json.of_size removed)]))),
       mkServer q (g_paused_agents s)))
  else if String.eqb (method ci) "POST" && String.prefix "/complete/" path then
    let key := String.substring (String.length "/complete/")
                 (String.length path - String.length "/complete/") path in
    if String.eqb key "" then
      (ret (send_response MHD_HTTP_BAD_REQUEST
              (json_dump (JObj [("error", JStr "id required")]))), s)
    else
      match completion_of_body (body ci) with
      | inl e => (throw e, s)
      | inr (ok, detail) =>
          (ret (send_response MHD_HTTP_OK (json_dump (JObj [("ok", JBool true)]))),
           mkServer (complete key ok detail (g_queue s)) (g_paused_agents s))
      end
  else if route "GET" "/peek" then
    with_agent (λ a,
      match peek_for_agent a (g_queue s) with
      | None => (ret send_no_content, s)
      | Some p =>
          (jj <~ job_json (job p) ;;
           ret (send_response MHD_HTTP_OK
                  (json_dump (JObj [("job", jj); ("lane", JStr (lane p));
                                    ("position", Json.of_size (position p))]))),
           s)
      end)
  else if route "POST" "/control/skip_next" then
    with_agent (λ a,
      let '(moved, q) := skip_next_for_agent a (g_queue s) in
      (ret (send_response MHD_HTTP_OK (json_dump (JObj [("ok", JBool moved)]))),
       mkServer q (g_paused_agents s)))
  else if route "POST" "/control/bring_forward" then
    with_agent (λ a,
      let '(moved, q) := bring_forward_for_agent a (g_queue s) in
      (ret (send_response MHD_HTTP_OK (json_dump (JObj [("ok", JBool moved)]))),
       mkServer q (g_paused_agents s)))
  else if route "POST" "/control/stop" then
    with_agent (λ a,
      let paused := {[a]} ∪ g_paused_agents s in
      let '(removed, q) := cancel_queued_for_agent a (g_queue s) in
      (ret (send_response MHD_HTTP_OK
              (json_dump (JObj [("ok", JBool true); ("paused", JBool true);
                                ("removed", Json.of_size removed)]))),
       mkServer q paused))
  else
    (ret (send_response MHD_HTTP_NOT_FOUND (json_dump (JObj [("error", JStr "not found")]))), s).

(** [handler] on the call that answers the request: the [catch] turns
    an exception into a 400 carrying its message. *)
Definition handler (minted : string) (connection : gmap string string)
    (ci : ConnInfo) (s : Server) : Response * Server :=
  match handler_try minted connection ci s with
  | (inr r, s') => (r, s')
  | (inl e, s') =>
      (send_response MHD_HTTP_BAD_REQUEST (json_dump (JObj [("error", JStr (what e))])), s')
  end.

End Handler.

(** ** Runs of the queue

    A client of the queue object issues a sequence of calls.  [Op] names
    the six mutating calls, [step] performs one and [run] a sequence of
    them; [Tally] counts what the calls returned along the way. *)

Inductive Op :=
| OpEnqueue (j : Job)
| OpDequeue (a : string)
| OpComplete (key : string) (ok : bool) (detail : string)
| OpCancel (a : string)
| OpSkipNext (a : string)
| OpBringForward (a : string).

Definition step (o : Op) (s : InMemoryPriorityQueue) : InMemoryPriorityQueue :=
  match o with
  | OpEnqueue j => (enqueue j s).2
  | OpDequeue a => (dequeue_for_agent a s).2
  | OpComplete key ok detail => complete key ok detail s
  | OpCancel a => (cancel_queued_for_agent a s).2
  | OpSkipNext a => (skip_next_for_agent a s).2
  | OpBringForward a => (bring_forward_for_agent a s).2
  end.

Fixpoint run (ops : list Op) (s : InMemoryPriorityQueue) : InMemoryPriorityQueue :=
  match ops with
  | [] => s
  | o :: rest => run rest (step o s)
  end.

(** The ids of the jobs in the three live locations, as a snapshot lists
    them: high lane, low lane, inflight table. *)
Definition live_ids (s : InMemoryPriorityQueue) : list string :=
  let sn := snapshot s in
  id <$> (snap_high sn ++ snap_low sn ++ snap_inflight sn).

Definition unique_ids (s : InMemoryPriorityQueue) : Prop := NoDup (live_ids s).

(** Every [enqueue] of the run brings an id that is not live when it is
    called. *)
Fixpoint fresh_enqueues (ops : list Op) (s : InMemoryPriorityQueue) : bool :=
  match ops with
  | [] => true
  | o :: rest =>
      match o with
      | OpEnqueue j => bool_decide (id j ∉ live_ids s)
      | _ => true
      end && fresh_enqueues rest (step o s)
  end.

Record Tally := mkTally {
  enqueued : nat;   (* calls of enqueue *)
  dequeued : nat;   (* calls of dequeue_for_agent that returned a job *)
  cancelled : nat;  (* sum of the counts cancel_queued_for_agent returned *)
  completed : nat;  (* calls of complete *)
  retired : nat     (* calls of complete whose id was in the inflight table *)
}.

Definition no_calls : Tally := mkTally 0 0 0 0 0.

Definition count (o : Op) (s : InMemoryPriorityQueue) (t : Tally) : Tally :=
  match o with
  | OpEnqueue _ =>
      mkTally (S (enqueued t)) (dequeued t) (cancelled t) (completed t) (retired t)
  | OpDequeue a =>
      match (dequeue_for_agent a s).1 with
      | Some _ => mkTally (enqueued t) (S (dequeued t)) (cancelled t) (completed t) (retired t)
      | None => t
      end
  | OpCancel a =>
      mkTally (enqueued t) (dequeued t) (cancelled t + (cancel_queued_for_agent a s).1)
        (completed t) (retired t)
  | OpComplete key _ _ =>
      mkTally (enqueued t) (dequeued t) (cancelled t) (S (completed t))
        (if bool_decide (is_Some (inflight_ s !! key)) then S (retired t) else retired t)
  | OpSkipNext _ | OpBringForward _ => t
  end.

Fixpoint tally (ops : list Op) (s : InMemoryPriorityQueue) (t : Tally) : Tally :=
  match ops with
  | [] => t
  | o :: rest => tally rest (step o s) (count o s t)
  end.

(** ** Vocabulary of the statements *)

(** [j] at index [i] is the first job of lane [q] addressed to [a]. *)
Definition first_for (a : string) (q : list Job) (i : nat) (j : Job) : Prop :=
  q !! i = Some j ∧ agent j = a ∧
  ∀ k j', k < i → q !! k = Some j' → agent j' ≠ a.

Definition none_for (a : string) (q : list Job) : Prop :=
  ∀ j, j ∈ q → agent j ≠ a.

(** The jobs of a lane addressed to [a], in lane order. *)
Definition jobs_for (a : string) (q : list Job) : list Job :=
  filter (λ j, agent j = a) q.

(** Requests, as the handler sees them. *)
Definition request (m p text : string) : ConnInfo := mkConnInfo m p text.

Definition is_resume_of (a : string) (connection : gmap string string) (ci : ConnInfo) : Prop :=
  method ci = "POST" ∧ url ci = "/control/resume" ∧ connection !! "agent" = Some a.

(** A JSON document a worker may send to [/complete/{id}]: an object
    whose [status] and [error], when present, are strings. *)
Definition completion_document (j : json) : Prop :=
  match j with
  | JObj fields =>
      (∀ v, Json.find "status" fields = Some v → ∃ s, v = JStr s) ∧
      (∀ v, Json.find "error" fields = Some v → ∃ s, v = JStr s)
  | _ => False
  end.

(** ** Sample data *)

Module Sample.

Definition first_x : Job := mkJob "x" "rag" "m0" "low" "{}".
Definition second_x : Job := mkJob "x" "rag" "m1" "high" "{}".
Definition for_seo : Job := mkJob "s1" "seo" "m" "high" "{}".
Definition rag_high : Job := mkJob "r1" "rag" "m" "high" "{}".
Definition rag_low : Job := mkJob "r2" "rag" "m" "low" "{}".
Definition rag_urgent : Job := mkJob "r3" "rag" "m" "urgent" "{}".

(** A job with id [x] is enqueued and dequeued, and a second job with
    the same id is enqueued while the first is inflight. *)
Definition reused_id : InMemoryPriorityQueue :=
  run [OpEnqueue first_x; OpDequeue "rag"; OpEnqueue second_x] empty_queue.

Definition two_lanes : InMemoryPriorityQueue :=
  mkQueue [for_seo; rag_high] [rag_low; rag_urgent] ∅.

End Sample.

(** ** Well-formed states *)

(** The queued jobs: high lane, then low lane. *)
Definition lanes (s : InMemoryPriorityQueue) : list Job := high_ s ++ low_ s.

(** Each inflight entry is stored under the id of its job. *)
Definition coherent (s : InMemoryPriorityQueue) : Prop :=
  ∀ k j, inflight_ s !! k = Some j → id j = k.

Definition well_formed (s : InMemoryPriorityQueue) : Prop :=
  NoDup (id <$> lanes s) ∧
  (∀ j, j ∈ lanes s → inflight_ s !! id j = None) ∧
  coherent s.

(** ** Sequences of requests *)

(** One request as [handler] receives it: the id [gen_id] would mint for
    it, the query arguments of the connection, and the connection info. *)
Definition Request : Type := string * gmap string string * ConnInfo.

Fixpoint serve (json_parse : string → option json) (json_dump : json → string)
    (what : json_exception → string) (reqs : list Request) (s : Server) : Server :=
  match reqs with
  | [] => s
  | (minted, connection, ci) :: rest =>
      serve json_parse json_dump what rest
        (handler json_parse json_dump what minted connection ci s).2
  end.

(** ** A stand-in for the JSON library

    Enough of a parser and a printer to run the handler on sample
    requests: the parser knows three request bodies by name, the printer
    writes the constructors and leaves quoting and digits out. *)

Module Standin.

Definition urgent_job : json :=
  JObj [("agent", JStr "rag"); ("model", JStr "m"); ("priority", JStr "urgent")].

Definition status_ok : json := JObj [("status", JStr "ok")].

Definition json_parse (text : string) : option json :=
  if String.eqb text "urgent job" then Some urgent_job
  else if String.eqb text "status ok" then Some status_ok
  else if String.eqb text "{}" then Some (JObj [])
  else None.

Fixpoint json_dump (j : json) : string :=
  match j with
  | JNull => "null"
  | JBool true => "true"
  | JBool false => "false"
  | JNum _ => "#"
  | JStr s => s
  | JArr items =>
      "[" ++ String.concat "," (List.map json_dump items) ++ "]"
  | JObj fields =>
      "{" ++ String.concat "," (List.map (λ kv, kv.1 ++ ":" ++ json_dump kv.2) fields) ++ "}"
  end%string.

Definition what (e : json_exception) : string :=
  match e with
  | parse_error => "parse error"
  | type_error => "type error"
  | out_of_range => "key not found"
  end.

Definition handler := handler json_parse json_dump what.

Definition serve := serve json_parse json_dump what.

Definition idle : Server := mkServer empty_queue ∅.

(** A server holding one queued and one inflight job for [rag]. *)
Definition busy : Server :=
  mkServer (mkQueue [Sample.rag_high] [Sample.for_seo; Sample.rag_low]
              (<["r7" := mkJob "r7" "rag" "m" "low" "{}"]> ∅))
           ∅.

End Standin.

(** ** A worker polling the queue *)

(** [n] calls of [dequeue_for_agent a] in a row, as a worker of agent [a]
    makes them: the jobs handed out, in order, and the state left.  The
    worker stops at the first call that returns nothing. *)
Fixpoint drain (a : string) (n : nat) (s : InMemoryPriorityQueue)
  : list Job * InMemoryPriorityQueue :=
  match n with
  | 0 => ([], s)
  | S n' =>
      match dequeue_for_agent a s with
      | (Some j, s') => let '(js, s'') := drain a n' s' in (j :: js, s'')
      | (None, s') => ([], s')
      end
  end.

(** The jobs of a batch that [enqueue] sends to the high lane, and those
    it sends to the low lane. *)
Definition to_high (js : list Job) : list Job :=
  filter (λ j, priority j = "high") js.

Definition to_low (js : list Job) : list Job :=
  filter (λ j, priority j ≠ "high") js.

(** ** The routes of the handler *)

(** The routes that read [?agent=] and answer 400 without it. *)
Definition agent_routes : list (string * string) :=
  [("GET", "/dequeue"); ("POST", "/control/pause"); ("POST", "/control/resume");
   ("DELETE", "/jobs"); ("GET", "/peek"); ("POST", "/control/skip_next");
   ("POST", "/control/bring_forward"); ("POST", "/control/stop")].

(** The routes matched on the whole path; [POST /complete/...] is matched
    on its prefix. *)
Definition exact_routes : list (string * string) :=
  [("POST", "/enqueue"); ("GET", "/stats"); ("GET", "/control/state")] ++ agent_routes.

(** A JSON document [POST /enqueue] accepts: an object whose [agent] and
    [model] are strings and whose [id] and [priority], when present, are
    strings. *)
Definition enqueue_document (j : json) : Prop :=
  match j with
  | JObj fields =>
      (∃ a, Json.find "agent" fields = Some (JStr a)) ∧
      (∃ m, Json.find "model" fields = Some (JStr m)) ∧
      (∀ v, Json.find "id" fields = Some v → ∃ s, v = JStr s) ∧
      (∀ v, Json.find "priority" fields = Some v → ∃ s, v = JStr s)
  | _ => False
  end.

(** The string stored under [key], or [dflt] without one. *)
Definition string_field (key dflt : string) (fields : list (string * json)) : string :=
  match Json.find key fields with
  | Some (JStr s) => s
  | _ => dflt
  end.

(** ** Counters of [/stats] *)




(** ** main.cpp: [gen_id] *)

From Stdlib Require Import Ascii NArith.

Module Printf.

(** One digit of [%x], lower case: ['0'] is 48 and ['a'] is 97. *)
Definition hex_digit (d : N) : ascii :=
  ascii_of_N (if (d <? 10)%N then 48 + d else 87 + d)%N.

(** The hexadecimal digits of [n], least significant first, none for 0;
    [fuel] bounds how many are produced. *)
Fixpoint hex_rev (fuel : nat) (n : N) : list ascii :=
  match fuel with
  | 0 => []
  | S fuel' =>
      if (n =? 0)%N then []
      else hex_digit (n mod 16)%N :: hex_rev fuel' (n / 16)%N
  end.

(** [%llx] of a 64-bit value: it has at most 16 digits. *)
Definition llx (n : N) : list ascii :=
  if (n =? 0)%N then ["0"%char] else rev (hex_rev 16 n).

(** [%016llx]: zeros on the left up to a width of 16. *)
Definition llx_016 (n : N) : list ascii :=
  let digits := llx n in
  replicate (16 - length digits) "0"%char ++ digits.

(** What a string of hexadecimal digits stands for. *)
Definition hex_value (c : ascii) : N :=
  let n := N_of_ascii c in
  if (n <? 58)%N then (n - 48)%N else (n - 87)%N.

Definition unhex (s : list ascii) : N :=
  fold_left (λ acc c, acc * 16 + hex_value c)%N s 0%N.

End Printf.

(** [gen_id] for the two 64-bit draws [a] and [b] of the generator:
    [snprintf(buf, 33, "%016llx%016llx", a, b)] keeps at most 32
    characters. *)
Definition gen_id (a b : N) : string :=
  string_of_list_ascii
    (take (33 - 1) (Printf.llx_016 (a mod 2 ^ 64)%N ++ Printf.llx_016 (b mod 2 ^ 64)%N)).

(** ** agent_client.hpp, agent_client.cpp: the client of the agents *)

Module Sdk.

Record Task := mkTask {
  id : string;
  agent : string;
  model : string;
  priority : string;
  payload_json : string
}.

(** [s.back()] and [s.pop_back()] on a non-empty string. *)
Fixpoint back (s : string) : option ascii :=
  match s with
  | EmptyString => None
  | String c EmptyString => Some c
  | String _ s' => back s'
  end.

Fixpoint pop_back (s : string) : string :=
  match s with
  | EmptyString => EmptyString
  | String _ EmptyString => EmptyString
  | String c s' => String c (pop_back s')
  end.

(** The constructor: [base_] for a given [base_url]. *)
Definition AgentQueueClient (base_url : string) : string :=
  match back base_url with
  | Some c => if Ascii.eqb c "/" then pop_back base_url else base_url
  | None => base_url
  end.

Definition dequeue_url (base_ a : string) : string :=
  (base_ ++ "/dequeue?agent=" ++ a)%string.

Definition complete_url (base_ key : string) : string :=
  (base_ ++ "/complete/" ++ key)%string.

Definition enqueue_url (base_ : string) : string := (base_ ++ "/enqueue")%string.

(** The outcome of a transfer: nothing when [curl_easy_perform] fails,
    else the response code and the body received. *)
Definition Transfer : Type := option (Z * string).

Definition success (status : Z) : bool := (200 <=? status)%Z && (status <? 300)%Z.

Section Client.

Variable json_parse : string → option json.
Variable json_dump : json → string.

(** [dequeue], from the transfer on: no task on a failed transfer, on
    204 and on any code outside 200..299; else the task read off the
    body, which throws when the body is not the expected document. *)
Definition dequeue (r : Transfer) : throws (option Task) :=
  match r with
  | None => ret None
  | Some (status, buf) =>
      if (status =? 204)%Z then ret None
      else if (status <? 200)%Z || (300 <=? status)%Z then ret None
      else
        j <~ parse json_parse buf ;;
        i <~ (v <~ Json.at_ j "id" ;; Json.get_string v) ;;
        a <~ (v <~ Json.at_ j "agent" ;; Json.get_string v) ;;
        m <~ (v <~ Json.at_ j "model" ;; Json.get_string v) ;;
        p <~ Json.value_string j "priority" "low" ;;
        pl <~ Json.value_json j "payload" (JObj []) ;;
        ret (Some (mkTask i a m p (json_dump pl)))
  end.



(** The body [enqueue] posts; building it throws when the task's payload
    is not empty and does not parse. *)
Definition enqueue_body (t : Task) : throws string :=
  pl <~ (if String.eqb (payload_json t) "" then ret (JObj [])
         else parse json_parse (payload_json t)) ;;
  ret (json_dump
         (JObj [("agent", JStr (agent t)); ("model", JStr (model t));
                ("priority", JStr (if String.eqb (priority t) "" then "low" else priority t));
                ("payload", pl)])).

(** What [enqueue] returns for a transfer, and the id it writes to
    [out_id]: the [id] string of the answer, when the answer parses and
    has one. *)
Definition enqueued_id (buf : string) : option string :=
  match json_parse buf with
  | Some (JObj fields) =>
      match Json.find "id" fields with
      | Some (JStr s) => Some s
      | _ => None
      end
  | _ => None
  end.

Definition enqueue (r : Transfer) : bool * option string :=
  match r with
  | None => (false, None)
  | Some (status, buf) =>
      if success status then (true, enqueued_id buf) else (false, None)
  end.

End Client.

End Sdk.

(** The task that carries the fields of a job. *)
Definition task_of_job (j : Job) : Sdk.Task :=
  Sdk.mkTask (id j) (agent j) (model j) (priority j) (payload j).


(** ** A stand-in parser that reads back what the stand-in printer wrote *)

Module Echo.

Definition status_ok : json := JObj [("status", JStr "ok")].

Definition dequeued : json :=
  JObj [("id", JStr "r1"); ("agent", JStr "rag"); ("model", JStr "m");
        ("priority", JStr "high"); ("payload", JObj [])].

Definition posted : json :=
  JObj [("agent", JStr "rag"); ("model", JStr "m"); ("priority", JStr "low");
        ("payload", JObj [])].

Definition minted : json := JObj [("id", JStr "00ff")].

Definition known : list json := [JObj []; status_ok; dequeued; posted; minted].

(** The first known document that prints as [text]. *)
Definition json_parse (text : string) : option json :=
  List.find (λ doc, String.eqb (Standin.json_dump doc) text) known.

Definition handler := handler json_parse Standin.json_dump Standin.what.

End Echo.


(** ** agents/rag/src/util.cpp: [chunk_code_lines]

    The [int]s of the source are integers checked against the range of
    a 32-bit [int]: signed overflow has no defined result, and neither
    has the function then. *)

Module Rag.

Definition newline : ascii := ascii_of_nat 10.

Definition int_min : Z := - 2 ^ 31.
Definition int_max : Z := 2 ^ 31 - 1.

(** The value of an [int] expression, if it has one. *)
Definition checked (z : Z) : option Z :=
  if (int_min <=? z)%Z && (z <=? int_max)%Z then Some z else None.

(** [(int)lines.size()]: the conversion keeps the low 32 bits. *)
Definition to_int (z : Z) : Z := ((z + 2 ^ 31) mod 2 ^ 32 - 2 ^ 31)%Z.

(** The loop [while (std::getline(ss, line)) lines.push_back(line)]:
    every newline ends a line, and characters after the last newline
    make a last line. *)
Fixpoint getlines (text : string) : list string :=
  match text with
  | EmptyString => []
  | String c rest =>
      if Ascii.eqb c newline then EmptyString :: getlines rest
      else
        match getlines rest with
        | [] => [String c EmptyString]
        | line :: lines => String c line :: lines
        end
  end.

(** [lines[i]], ..., [lines[end - 1]]. *)
Definition slice (i e : Z) (lines : list string) : list string :=
  take (Z.to_nat (e - i)) (drop (Z.to_nat i) lines).

(** What the inner loop writes to [os]: each line followed by a newline. *)
Definition render (lines : list string) : string :=
  foldr (λ line os, line +:+ String newline os) EmptyString lines.

(** The outer loop from index [i] on, giving the chunks pushed from
    there; [fuel] bounds its rounds. *)
Fixpoint chunk_loop (fuel : nat) (lines : list string) (max_lines step i : Z)
  : option (list string) :=
  match fuel with
  | 0 => None
  | S fuel' =>
      let n := to_int (Z.of_nat (length lines)) in
      if (i <? n)%Z then
        match checked (i + max_lines) with
        | None => None
        | Some w =>
            let e := Z.min n w in
            let s := render (slice i e lines) in
            let chunks := if String.eqb s "" then [] else [s] in
            if (e =? n)%Z then Some chunks
            else
              match checked (i + step) with
              | None => None
              | Some i' =>
                  match chunk_loop fuel' lines max_lines step i' with
                  | None => None
                  | Some rest => Some (chunks ++ rest)
                  end
              end
        end
      else Some []
  end.

(** The index grows by at least 1 each round, so one round more than
    there are lines is enough. *)
Definition chunk_code_lines (text : string) (max_lines overlap : Z)
  : option (list string) :=
  let lines := getlines text in
  match lines with
  | [] => Some []
  | _ =>
      match checked (max_lines - overlap) with
      | None => None
      | Some d => chunk_loop (S (length lines)) lines max_lines (Z.max 1 d) 0
      end
  end.

(** The windows of lines behind consecutive chunks share [keep] lines:
    putting the chunks' lines together again drops them from every
    window but the first. *)
Definition stitch (keep : nat) (groups : list (list string)) : list string :=
  match groups with
  | [] => []
  | g :: gs => g ++ concat (drop keep <$> gs)
  end.

End Rag.
(** * Properties *)

(** ** The per-agent scan *)

Lemma agent_eqb_true (j : Job) (a : string) : String.eqb (agent j) a = true ↔ agent j = a.
Proof. apply String.eqb_eq. Qed.

Lemma agent_eqb_false (j : Job) (a : string) : String.eqb (agent j) a = false ↔ agent j ≠ a.
Proof. apply String.eqb_neq. Qed.

Lemma first_for_here (a : string) (j : Job) (q : list Job) :
  agent j = a → first_for a (j :: q) 0 j.
Proof. intros Ha. split; [done|]. split; [done|]. intros k j' Hk. lia. Qed.

Lemma first_for_later (a : string) (j0 j : Job) (q : list Job) (k : nat) :
  agent j0 ≠ a → first_for a q k j → first_for a (j0 :: q) (S k) j.
Proof.
  intros Hne (Hl & Ha & Hmin). split; [done|]. split; [done|].
  intros [|k'] j' Hk Hj'; simpl in Hj'.
  - by inversion Hj'; subst.
  - apply (Hmin k' j'); [lia | done].
Qed.

Lemma first_for_cons_inv (a : string) (j0 j : Job) (q : list Job) (k : nat) :
  first_for a (j0 :: q) k j →
  (k = 0 ∧ j = j0 ∧ agent j0 = a) ∨
  (∃ k', k = S k' ∧ agent j0 ≠ a ∧ first_for a q k' j).
Proof.
  intros (Hl & Ha & Hmin). destruct k as [|k']; simpl in Hl.
  - left. inversion Hl; subst. done.
  - right. exists k'. split; [done|]. split.
    + apply (Hmin 0 j0); [lia | done].
    + split; [done|]. split; [done|].
      intros k j' Hk Hj'. apply (Hmin (S k) j'); [lia | done].
Qed.

Lemma scan_from_Some (a : string) (q : list Job) (n i : nat) (j : Job) :
  Deque.scan_from a q n = Some (i, j) ↔ ∃ k, i = n + k ∧ first_for a q k j.
Proof.
  revert n. induction q as [|j0 q IH]; intros n; simpl.
  - split; [done|]. intros (k & _ & Hl & _). by rewrite lookup_nil in Hl.
  - destruct (String.eqb (agent j0) a) eqn:E.
    + apply agent_eqb_true in E. split.
      * intros [= <- <-]. exists 0. split; [lia|]. by apply first_for_here.
      * intros (k & -> & Hf).
        destruct (first_for_cons_inv _ _ _ _ _ Hf) as [(-> & -> & _)|(k' & _ & Hne & _)].
        -- f_equal. f_equal. lia.
        -- done.
    + apply agent_eqb_false in E. rewrite IH. split.
      * intros (k & -> & Hf). exists (S k). split; [lia|]. by apply first_for_later.
      * intros (k & -> & Hf).
        destruct (first_for_cons_inv _ _ _ _ _ Hf) as [(_ & _ & Ha)|(k' & -> & _ & Hf')].
        -- done.
        -- exists k'. split; [lia | done].
Qed.

Lemma scan_from_None (a : string) (q : list Job) (n : nat) :
  Deque.scan_from a q n = None ↔ none_for a q.
Proof.
  revert n. induction q as [|j0 q IH]; intros n; simpl.
  - split; [|done]. intros _ j Hj. by apply elem_of_nil in Hj.
  - destruct (String.eqb (agent j0) a) eqn:E.
    + apply agent_eqb_true in E. split; [done|].
      intros Hn. exfalso. apply (Hn j0); [left | done].
    + apply agent_eqb_false in E. rewrite IH. split.
      * intros Hn j [->|Hj]%elem_of_cons; [done | by apply Hn].
      * intros Hn j Hj. apply Hn. by right.
Qed.

Lemma scan_Some (a : string) (q : list Job) (i : nat) (j : Job) :
  Deque.scan a q = Some (i, j) ↔ first_for a q i j.
Proof.
  unfold Deque.scan. rewrite scan_from_Some. split.
  - by intros (k & -> & Hf).
  - intros Hf. by exists i.
Qed.

Lemma scan_None (a : string) (q : list Job) :
  Deque.scan a q = None ↔ none_for a q.
Proof. apply scan_from_None. Qed.

Lemma first_for_not_none (a : string) (q : list Job) (i : nat) (j : Job) :
  first_for a q i j → none_for a q → False.
Proof.
  intros (Hl & Ha & _) Hn. apply (Hn j); [|done].
  apply list_elem_of_lookup. by exists i.
Qed.

(** A lane either has a first job for [a] or has none. *)
Lemma first_for_or_none (a : string) (q : list Job) :
  (∃ i j, first_for a q i j) ∨ none_for a q.
Proof.
  destruct (Deque.scan a q) as [[i j]|] eqn:E.
  - left. exists i, j. by apply scan_Some.
  - right. by apply scan_None.
Qed.

(** ** C1: [dequeue_for_agent] *)

(** C1, as the claim words it, fails where the id of the chosen job is
    already a key of the inflight table: the job is returned and leaves
    its lane, and the table keeps the older entry. *)
Lemma dequeue_for_agent_keeps_older_entry :
  ∃ s', dequeue_for_agent "rag" Sample.reused_id = (Some Sample.second_x, s') ∧
        first_for "rag" (high_ Sample.reused_id) 0 Sample.second_x ∧
        inflight_ s' !! id Sample.second_x = Some Sample.first_x ∧
        inflight_ s' !! id Sample.second_x ≠ Some Sample.second_x.
Proof.
  eexists. split; [vm_compute; reflexivity|].
  split; [by apply first_for_here|].
  split; [vm_compute; reflexivity | vm_compute; discriminate].
Qed.

(** C1, amended: [dequeue_for_agent a] returns and removes the
    lowest-index job of the high lane addressed to [a], whatever the low
    lane holds; failing that, the lowest-index such job of the low lane;
    failing that, it returns nothing and the state is the one before.
    The job it returns is entered in the inflight table under its id,
    provided that id is not a key of the table already. *)
Theorem dequeue_for_agent_spec (a : string) (s : InMemoryPriorityQueue) :
  (∀ i j, first_for a (high_ s) i j →
     let r := dequeue_for_agent a s in
     r.1 = Some j ∧
     high_ r.2 = delete i (high_ s) ∧ low_ r.2 = low_ s ∧
     (inflight_ s !! id j = None → inflight_ r.2 = <[id j := j]> (inflight_ s))) ∧
  (∀ i j, none_for a (high_ s) → first_for a (low_ s) i j →
     let r := dequeue_for_agent a s in
     r.1 = Some j ∧
     high_ r.2 = high_ s ∧ low_ r.2 = delete i (low_ s) ∧
     (inflight_ s !! id j = None → inflight_ r.2 = <[id j := j]> (inflight_ s))) ∧
  (none_for a (high_ s) → none_for a (low_ s) →
     dequeue_for_agent a s = (None, s)).
Proof.
  split; [|split].
  - intros i j Hf r. subst r. apply scan_Some in Hf.
    unfold dequeue_for_agent, pop_from, emplace, Deque.erase. rewrite Hf. simpl.
    split; [done|]. split; [done|]. split; [done|]. intros Hnew. by rewrite Hnew.
  - intros i j Hn Hf r. subst r. apply scan_None in Hn. apply scan_Some in Hf.
    unfold dequeue_for_agent, pop_from, emplace, Deque.erase. rewrite Hn, Hf. simpl.
    split; [done|]. split; [done|]. split; [done|]. intros Hnew. by rewrite Hnew.
  - intros Hh Hl. apply scan_None in Hh, Hl.
    unfold dequeue_for_agent, pop_from. by rewrite Hh, Hl.
Qed.

Lemma dequeue_for_agent_spec_witness :
  (first_for "rag" (high_ Sample.two_lanes) 1 Sample.rag_high ∧
   inflight_ Sample.two_lanes !! id Sample.rag_high = None) ∧
  let r := dequeue_for_agent "rag" Sample.two_lanes in
  r.1 = Some Sample.rag_high ∧
  high_ r.2 = [Sample.for_seo] ∧
  low_ r.2 = [Sample.rag_low; Sample.rag_urgent] ∧
  inflight_ r.2 = <["r1" := Sample.rag_high]> ∅.
Proof.
  assert (Hf : first_for "rag" (high_ Sample.two_lanes) 1 Sample.rag_high).
  { apply first_for_later; [discriminate|]. by apply first_for_here. }
  assert (Hnew : inflight_ Sample.two_lanes !! id Sample.rag_high = None)
    by reflexivity.
  split; [done|].
  destruct (proj1 (dequeue_for_agent_spec "rag" Sample.two_lanes) 1 Sample.rag_high Hf)
    as (H1 & H2 & H3 & H4).
  split; [exact H1|]. split; [exact H2|]. split; [exact H3 | exact (H4 Hnew)].
Defined.

(** ** What each call does to the queued jobs and to the inflight table *)

Lemma remove_if_agent_filter (a : string) (q : list Job) :
  Deque.remove_if_agent a q = filter (λ j, agent j ≠ a) q.
Proof.
  induction q as [|j q IH]; [done|]. simpl.
  destruct (String.eqb (agent j) a) eqn:E.
  - apply agent_eqb_true in E. rewrite filter_cons_False; [done|]. by intros H.
  - apply agent_eqb_false in E. rewrite filter_cons_True; [|done]. by rewrite IH.
Qed.

Lemma remove_if_agent_sublist (a : string) (q : list Job) :
  Deque.remove_if_agent a q `sublist_of` q.
Proof. rewrite remove_if_agent_filter. apply sublist_filter. Qed.

Lemma remove_if_agent_none (a : string) (q : list Job) :
  none_for a (Deque.remove_if_agent a q).
Proof.
  intros j Hj. rewrite remove_if_agent_filter in Hj.
  by apply list_elem_of_filter in Hj as [? _].
Qed.

Lemma enqueue_lanes (j : Job) (s : InMemoryPriorityQueue) :
  lanes (enqueue j s).2 ≡ₚ j :: lanes s ∧
  inflight_ (enqueue j s).2 = inflight_ s.
Proof.
  unfold enqueue, lanes, Deque.push_back.
  destruct (String.eqb (priority j) "high"); simpl; split; try done.
  - rewrite <- app_assoc. simpl. by rewrite <- Permutation_middle.
  - rewrite app_assoc. by rewrite <- Permutation_cons_append.
Qed.

Lemma dequeue_for_agent_lanes (a : string) (s : InMemoryPriorityQueue) :
  match dequeue_for_agent a s with
  | (Some j, s') =>
      agent j = a ∧ lanes s ≡ₚ j :: lanes s' ∧
      inflight_ s' = emplace (id j) j (inflight_ s)
  | (None, s') => s' = s ∧ none_for a (lanes s)
  end.
Proof.
  unfold dequeue_for_agent, pop_from, lanes, Deque.erase.
  destruct (Deque.scan a (high_ s)) as [[i j]|] eqn:Eh.
  - apply scan_Some in Eh as (Hl & Ha & _). simpl. split; [done|]. split; [|done].
    by rewrite (delete_Permutation _ _ _ Hl) at 1.
  - destruct (Deque.scan a (low_ s)) as [[i j]|] eqn:El.
    + apply scan_Some in El as (Hl & Ha & _). simpl. split; [done|]. split; [|done].
      rewrite (delete_Permutation _ _ _ Hl) at 1. by rewrite <- Permutation_middle.
    + split; [done|]. apply scan_None in Eh, El.
      intros j [Hj|Hj]%elem_of_app; [by apply Eh | by apply El].
Qed.

(** With the id already a key of the inflight table, [emplace] adds
    nothing. *)
Lemma dequeue_for_agent_reused_id (a : string) (s : InMemoryPriorityQueue) (j : Job) :
  (dequeue_for_agent a s).1 = Some j → is_Some (inflight_ s !! id j) →
  inflight_ (dequeue_for_agent a s).2 = inflight_ s.
Proof.
  intros Hj [j0 Hold]. pose proof (dequeue_for_agent_lanes a s) as H.
  destruct (dequeue_for_agent a s) as [[j'|] s']; [|done].
  simpl in *. injection Hj as ->. destruct H as (_ & _ & ->).
  unfold emplace. by rewrite Hold.
Qed.

Lemma cancel_queued_for_agent_lanes (a : string) (s : InMemoryPriorityQueue) :
  let r := cancel_queued_for_agent a s in
  high_ r.2 = Deque.remove_if_agent a (high_ s) ∧
  low_ r.2 = Deque.remove_if_agent a (low_ s) ∧
  inflight_ r.2 = inflight_ s ∧
  lanes r.2 `sublist_of` lanes s ∧
  r.1 + length (lanes r.2) = length (lanes s).
Proof.
  unfold cancel_queued_for_agent, remove_from, lanes. simpl.
  repeat split.
  - apply sublist_app; apply remove_if_agent_sublist.
  - pose proof (sublist_length _ _ (remove_if_agent_sublist a (high_ s))).
    pose proof (sublist_length _ _ (remove_if_agent_sublist a (low_ s))).
    rewrite !length_app. lia.
Qed.

Lemma skip_next_for_agent_lanes (a : string) (s : InMemoryPriorityQueue) :
  lanes (skip_next_for_agent a s).2 ≡ₚ lanes s ∧
  inflight_ (skip_next_for_agent a s).2 = inflight_ s.
Proof.
  unfold skip_next_for_agent, lanes, Deque.push_back, Deque.erase.
  destruct (Deque.scan a (high_ s)) as [[i j]|] eqn:Eh; simpl.
  - apply scan_Some in Eh as (Hl & _). split; [|done].
    rewrite (delete_Permutation _ _ _ Hl) at 2.
    by rewrite <- Permutation_cons_append.
  - destruct (Deque.scan a (low_ s)) as [[i j]|] eqn:El; simpl; [|done].
    apply scan_Some in El as (Hl & _). split; [|done].
    rewrite (delete_Permutation _ _ _ Hl) at 2.
    by rewrite <- Permutation_cons_append.
Qed.

Lemma bring_forward_for_agent_lanes (a : string) (s : InMemoryPriorityQueue) :
  lanes (bring_forward_for_agent a s).2 ≡ₚ lanes s ∧
  inflight_ (bring_forward_for_agent a s).2 = inflight_ s.
Proof.
  unfold bring_forward_for_agent, lanes, Deque.push_front, Deque.erase.
  destruct (Deque.scan a (high_ s)) as [[i j]|] eqn:Eh; simpl.
  - apply scan_Some in Eh as (Hl & _). split; [|done].
    by rewrite (delete_Permutation _ _ _ Hl) at 2.
  - destruct (Deque.scan a (low_ s)) as [[i j]|] eqn:El; simpl; [|done].
    apply scan_Some in El as (Hl & _). split; [|done].
    rewrite (delete_Permutation _ _ _ Hl) at 2.
    by rewrite <- Permutation_middle.
Qed.

(** ** C2: uniqueness of ids *)

Lemma empty_queue_well_formed : well_formed empty_queue.
Proof.
  split; [constructor|]. split; [intros j Hj; by apply elem_of_nil in Hj|].
  intros k j Hk. simpl in Hk. by rewrite lookup_empty in Hk.
Qed.

Lemma well_formed_shrink (s s' : InMemoryPriorityQueue) :
  lanes s' ⊆+ lanes s → inflight_ s' = inflight_ s →
  well_formed s → well_formed s'.
Proof.
  intros Hsub Hin (Hnd & Hdisj & Hco). unfold well_formed, coherent. rewrite Hin.
  split; [|split; [|done]].
  - assert (Hm : id <$> lanes s' ⊆+ id <$> lanes s) by (by apply fmap_submseteq).
    destruct (submseteq_Permutation _ _ Hm) as [k Hk].
    rewrite Hk in Hnd. by apply NoDup_app in Hnd as [? _].
  - intros j Hj. apply Hdisj. by eapply elem_of_submseteq.
Qed.

Lemma coherent_ids (s : InMemoryPriorityQueue) :
  coherent s → id <$> (map_to_list (inflight_ s)).*2 = (map_to_list (inflight_ s)).*1.
Proof.
  intros Hco. unfold coherent in Hco.
  assert (H : ∀ l : list (string * Job),
             (∀ k j, (k, j) ∈ l → id j = k) → id <$> l.*2 = l.*1).
  { induction l as [|[k j] l IH]; intros Hl; [done|]. simpl. f_equal.
    - apply Hl. by left.
    - apply IH. intros k' j' Hin. apply Hl. by right. }
  apply H. intros k j Hin. apply Hco. by apply elem_of_map_to_list.
Qed.

Lemma live_ids_coherent (s : InMemoryPriorityQueue) :
  coherent s →
  live_ids s = (id <$> lanes s) ++ (map_to_list (inflight_ s)).*1.
Proof.
  intros Hco. unfold live_ids, snapshot, lanes. simpl.
  rewrite app_assoc, fmap_app. by rewrite coherent_ids.
Qed.

Lemma inflight_key_lookup (m : gmap string Job) (k : string) :
  k ∈ (map_to_list m).*1 ↔ is_Some (m !! k).
Proof.
  rewrite list_elem_of_fmap. split.
  - intros ([k' j] & -> & Hin). apply elem_of_map_to_list in Hin. by exists j.
  - intros [j Hj]. exists (k, j). split; [done|]. by apply elem_of_map_to_list.
Qed.

Lemma well_formed_unique_ids (s : InMemoryPriorityQueue) :
  well_formed s → unique_ids s.
Proof.
  intros (Hnd & Hdisj & Hco). unfold unique_ids.
  rewrite live_ids_coherent by done. apply NoDup_app.
  split; [done|]. split; [|apply NoDup_fst_map_to_list].
  intros k Hk Hin. apply list_elem_of_fmap in Hk as (j & -> & Hj).
  apply inflight_key_lookup in Hin. rewrite (Hdisj j Hj) in Hin.
  by destruct Hin.
Qed.

Lemma fresh_id_not_live (j : Job) (s : InMemoryPriorityQueue) :
  coherent s → id j ∉ live_ids s →
  (id j ∉ id <$> lanes s) ∧ inflight_ s !! id j = None.
Proof.
  intros Hco Hfr. rewrite live_ids_coherent in Hfr by done.
  apply not_elem_of_app in Hfr as [Hl Hi]. split; [done|].
  destruct (inflight_ s !! id j) eqn:E; [|done].
  exfalso. apply Hi. apply inflight_key_lookup. by rewrite E.
Qed.

Lemma enqueue_well_formed (j : Job) (s : InMemoryPriorityQueue) :
  id j ∉ live_ids s → well_formed s → well_formed (enqueue j s).2.
Proof.
  intros Hfr (Hnd & Hdisj & Hco).
  destruct (fresh_id_not_live j s Hco Hfr) as [Hl Hi].
  destruct (enqueue_lanes j s) as [Hp Hin].
  unfold well_formed, coherent. rewrite Hin. split; [|split; [|done]].
  - rewrite Hp, fmap_cons. by apply NoDup_cons.
  - intros j' Hj'. rewrite Hp in Hj'.
    apply elem_of_cons in Hj' as [->|Hj']; [done | by apply Hdisj].
Qed.

Lemma dequeue_for_agent_well_formed (a : string) (s : InMemoryPriorityQueue) :
  well_formed s → well_formed (dequeue_for_agent a s).2.
Proof.
  intros (Hnd & Hdisj & Hco).
  pose proof (dequeue_for_agent_lanes a s) as H.
  destruct (dequeue_for_agent a s) as [[j|] s']; simpl.
  - destruct H as (_ & Hp & Hin).
    rewrite Hp, fmap_cons in Hnd. apply NoDup_cons in Hnd as [Hnew Hnd].
    assert (Hj : inflight_ s !! id j = None).
    { apply Hdisj. rewrite Hp. by left. }
    unfold emplace in Hin. rewrite Hj in Hin.
    unfold well_formed, coherent. rewrite Hin. split; [done|]. split.
    + intros j' Hj'. rewrite lookup_insert_ne.
      * apply Hdisj. rewrite Hp. by right.
      * intros Heq. apply Hnew. rewrite Heq. by apply list_elem_of_fmap_2.
    + intros k j' Hk. destruct (decide (id j = k)) as [<-|Hne].
      * rewrite lookup_insert_eq in Hk. by inversion Hk.
      * rewrite lookup_insert_ne in Hk by done. by apply Hco.
  - destruct H as [-> _]. done.
Qed.

Lemma complete_well_formed (key : string) (ok : bool) (detail : string)
    (s : InMemoryPriorityQueue) :
  well_formed s → well_formed (complete key ok detail s).
Proof.
  intros (Hnd & Hdisj & Hco). unfold well_formed, coherent, complete, lanes in *. simpl.
  split; [done|]. split.
  - intros j Hj. apply lookup_delete_None. right. by apply Hdisj.
  - intros k j Hk. apply lookup_delete_Some in Hk as [_ Hk]. by apply Hco.
Qed.

Lemma step_well_formed (o : Op) (s : InMemoryPriorityQueue) :
  match o with OpEnqueue j => id j ∉ live_ids s | _ => True end →
  well_formed s → well_formed (step o s).
Proof.
  destruct o as [j|a|key ok detail|a|a|a]; simpl; intros Hfr Hwf.
  - by apply enqueue_well_formed.
  - by apply dequeue_for_agent_well_formed.
  - by apply complete_well_formed.
  - destruct (cancel_queued_for_agent_lanes a s) as (_ & _ & Hin & Hsub & _).
    apply (well_formed_shrink s); [by apply sublist_submseteq | done | done].
  - destruct (skip_next_for_agent_lanes a s) as [Hp Hin].
    apply (well_formed_shrink s); [by rewrite Hp | done | done].
  - destruct (bring_forward_for_agent_lanes a s) as [Hp Hin].
    apply (well_formed_shrink s); [by rewrite Hp | done | done].
Qed.

Lemma run_well_formed (ops : list Op) (s : InMemoryPriorityQueue) :
  fresh_enqueues ops s = true → well_formed s → well_formed (run ops s).
Proof.
  revert s. induction ops as [|o ops IH]; intros s Hfr Hwf; [done|].
  simpl in *. apply andb_true_iff in Hfr as [Ho Hrest].
  apply IH; [done|]. apply step_well_formed; [|done].
  destruct o; try done. by apply bool_decide_eq_true in Ho.
Qed.

(** C2, as the claim words it, fails: [enqueue] takes the id the caller
    gives.  After enqueue, dequeue and a second enqueue under the same id,
    that id is in the high lane and in the inflight table. *)
Lemma reused_id_not_unique :
  Sample.reused_id =
    run [OpEnqueue Sample.first_x; OpDequeue "rag"; OpEnqueue Sample.second_x] empty_queue ∧
  live_ids Sample.reused_id = ["x"; "x"] ∧
  ¬ unique_ids Sample.reused_id.
Proof.
  split; [done|].
  assert (H : live_ids Sample.reused_id = ["x"; "x"]) by (vm_compute; reflexivity).
  split; [done|]. unfold unique_ids. rewrite H.
  intros Hnd. apply NoDup_cons in Hnd as [Hn _]. apply Hn. by left.
Qed.

(** C2, amended: in every state reached from the empty queue by a run of
    enqueue, dequeue_for_agent, complete, cancel_queued_for_agent,
    skip_next_for_agent and bring_forward_for_agent in which each enqueue
    brings an id that is not live at that moment, no id occurs twice
    among the jobs of the high lane, the low lane and the inflight
    table. *)
Theorem unique_ids_of_fresh_runs (ops : list Op) :
  fresh_enqueues ops empty_queue = true →
  unique_ids (run ops empty_queue).
Proof.
  intros Hfr. apply well_formed_unique_ids.
  apply run_well_formed; [done | apply empty_queue_well_formed].
Qed.

Lemma unique_ids_of_fresh_runs_witness :
  let ops := [OpEnqueue Sample.rag_low; OpEnqueue Sample.rag_high;
              OpEnqueue Sample.for_seo; OpBringForward "seo"; OpDequeue "rag";
              OpSkipNext "rag"; OpEnqueue Sample.rag_urgent; OpCancel "seo";
              OpComplete "r1" true ""; OpEnqueue Sample.rag_high] in
  fresh_enqueues ops empty_queue = true ∧ unique_ids (run ops empty_queue).
Proof.
  intros ops.
  assert (Hfr : fresh_enqueues ops empty_queue = true) by (vm_compute; reflexivity).
  split; [exact Hfr|]. exact (unique_ids_of_fresh_runs ops Hfr).
Defined.

(** ** The jobs of one agent, lane by lane *)

Lemma jobs_for_none (a : string) (q : list Job) :
  none_for a q ↔ jobs_for a q = [].
Proof.
  unfold jobs_for, none_for. induction q as [|j q IH].
  { split; [done|]. intros _ j Hj. by apply elem_of_nil in Hj. }
  destruct (decide (agent j = a)) as [Ha|Ha].
  - rewrite filter_cons_True by done. split; [|done].
    intros Hn. exfalso. apply (Hn j); [by left | done].
  - rewrite filter_cons_False by done. rewrite <- IH. split.
    + intros Hn j' Hj'. apply Hn. by right.
    + intros Hn j' [->|Hj']%elem_of_cons; [done | by apply Hn].
Qed.

Lemma jobs_for_first (a : string) (q : list Job) (i : nat) (j : Job) :
  first_for a q i j → jobs_for a q = j :: jobs_for a (delete i q).
Proof.
  unfold jobs_for. revert i. induction q as [|j0 q IH]; intros i Hf.
  - destruct Hf as (Hl & _). by rewrite lookup_nil in Hl.
  - destruct (first_for_cons_inv _ _ _ _ _ Hf) as [(-> & -> & Ha)|(k & -> & Hne & Hf')].
    + simpl. by rewrite filter_cons_True.
    + simpl. rewrite !filter_cons_False by done. by apply IH.
Qed.

Lemma jobs_for_app (a : string) (q1 q2 : list Job) :
  jobs_for a (q1 ++ q2) = jobs_for a q1 ++ jobs_for a q2.
Proof. apply filter_app. Qed.

Lemma scan_head (a : string) (q : list Job) :
  snd <$> Deque.scan a q = head (jobs_for a q).
Proof.
  destruct (Deque.scan a q) as [[i j]|] eqn:E; simpl.
  - apply scan_Some in E. by rewrite (jobs_for_first _ _ _ _ E).
  - apply scan_None, jobs_for_none in E. by rewrite E.
Qed.

(** What [dequeue_for_agent a] hands out is the first of the jobs for
    [a], reading the high lane and then the low lane. *)
Lemma dequeue_for_agent_head (a : string) (s : InMemoryPriorityQueue) :
  (dequeue_for_agent a s).1 = head (jobs_for a (lanes s)).
Proof.
  unfold lanes. rewrite jobs_for_app.
  pose proof (scan_head a (high_ s)) as Hh. pose proof (scan_head a (low_ s)) as Hl.
  unfold dequeue_for_agent, pop_from.
  destruct (Deque.scan a (high_ s)) as [[i j]|]; simpl in *.
  - destruct (jobs_for a (high_ s)); [done|]. simpl in *. done.
  - destruct (jobs_for a (high_ s)); [|done]. simpl.
    destruct (Deque.scan a (low_ s)) as [[i j]|]; simpl in *; done.
Qed.

Lemma peek_for_agent_head (a : string) (s : InMemoryPriorityQueue) :
  job <$> peek_for_agent a s = head (jobs_for a (lanes s)).
Proof.
  unfold lanes. rewrite jobs_for_app.
  pose proof (scan_head a (high_ s)) as Hh. pose proof (scan_head a (low_ s)) as Hl.
  unfold peek_for_agent.
  destruct (Deque.scan a (high_ s)) as [[i j]|]; simpl in *.
  - destruct (jobs_for a (high_ s)); [done|]. simpl in *. done.
  - destruct (jobs_for a (high_ s)); [|done]. simpl.
    destruct (Deque.scan a (low_ s)) as [[i j]|]; simpl in *; done.
Qed.

Lemma none_for_lanes (a : string) (s : InMemoryPriorityQueue) :
  none_for a (lanes s) ↔ none_for a (high_ s) ∧ none_for a (low_ s).
Proof.
  unfold lanes, none_for. split.
  - intros H. split; intros j Hj; apply H, elem_of_app; [by left | by right].
  - intros [Hh Hl] j [Hj|Hj]%elem_of_app; [by apply Hh | by apply Hl].
Qed.

(** ** C5: [bring_forward_for_agent] *)

(** C5: when a job for [a] is queued, [bring_forward_for_agent a] takes
    the head-for-agent job (the one [peek_for_agent a] reports) out of
    its lane, puts that very record, priority field included, at the
    front of the high lane and returns true, and a [dequeue_for_agent a]
    right after returns that job; when no job for [a] is queued it
    returns false and the state is the one before. *)
Theorem bring_forward_for_agent_spec (a : string) (s : InMemoryPriorityQueue) :
  (∀ i j, first_for a (high_ s) i j →
     peek_for_agent a s = Some (mkPeekInfo j "high" i) ∧
     bring_forward_for_agent a s =
       (true, mkQueue (j :: delete i (high_ s)) (low_ s) (inflight_ s)) ∧
     (dequeue_for_agent a (bring_forward_for_agent a s).2).1 = Some j) ∧
  (∀ i j, none_for a (high_ s) → first_for a (low_ s) i j →
     peek_for_agent a s = Some (mkPeekInfo j "low" i) ∧
     bring_forward_for_agent a s =
       (true, mkQueue (j :: high_ s) (delete i (low_ s)) (inflight_ s)) ∧
     (dequeue_for_agent a (bring_forward_for_agent a s).2).1 = Some j) ∧
  ((∃ j, j ∈ lanes s ∧ agent j = a) →
     ∃ p, peek_for_agent a s = Some p ∧
          (bring_forward_for_agent a s).1 = true ∧
          head (high_ (bring_forward_for_agent a s).2) = Some (job p) ∧
          inflight_ (bring_forward_for_agent a s).2 = inflight_ s ∧
          (dequeue_for_agent a (bring_forward_for_agent a s).2).1 = Some (job p)) ∧
  (none_for a (lanes s) → bring_forward_for_agent a s = (false, s)).
Proof.
  assert (Hfront : ∀ j h l m, agent j = a →
            (dequeue_for_agent a (mkQueue (j :: h) l m)).1 = Some j).
  { intros j h l m Ha. rewrite dequeue_for_agent_head. unfold lanes, jobs_for. simpl.
    by rewrite filter_cons_True. }
  assert (Hhigh : ∀ i j, first_for a (high_ s) i j →
     peek_for_agent a s = Some (mkPeekInfo j "high" i) ∧
     bring_forward_for_agent a s =
       (true, mkQueue (j :: delete i (high_ s)) (low_ s) (inflight_ s)) ∧
     (dequeue_for_agent a (bring_forward_for_agent a s).2).1 = Some j).
  { intros i j Hf. pose proof Hf as (_ & Ha & _). apply scan_Some in Hf.
    unfold peek_for_agent, bring_forward_for_agent. rewrite Hf. simpl.
    split; [done|]. split; [done|]. by apply Hfront. }
  assert (Hlow : ∀ i j, none_for a (high_ s) → first_for a (low_ s) i j →
     peek_for_agent a s = Some (mkPeekInfo j "low" i) ∧
     bring_forward_for_agent a s =
       (true, mkQueue (j :: high_ s) (delete i (low_ s)) (inflight_ s)) ∧
     (dequeue_for_agent a (bring_forward_for_agent a s).2).1 = Some j).
  { intros i j Hn Hf. pose proof Hf as (_ & Ha & _).
    apply scan_None in Hn. apply scan_Some in Hf.
    unfold peek_for_agent, bring_forward_for_agent. rewrite Hn, Hf. simpl.
    split; [done|]. split; [done|]. by apply Hfront. }
  split; [exact Hhigh|]. split; [exact Hlow|]. split.
  - intros (j0 & Hin & Ha0).
    destruct (first_for_or_none a (high_ s)) as [(i & j & Hf)|Hn].
    + destruct (Hhigh i j Hf) as (Hp & Hb & Hd).
      exists (mkPeekInfo j "high" i). rewrite Hd. by rewrite Hb.
    + destruct (first_for_or_none a (low_ s)) as [(i & j & Hf)|Hn'].
      * destruct (Hlow i j Hn Hf) as (Hp & Hb & Hd).
        exists (mkPeekInfo j "low" i). rewrite Hd. by rewrite Hb.
      * exfalso. apply elem_of_app in Hin as [Hin|Hin]; [by apply (Hn j0) | by apply (Hn' j0)].
  - intros [Hh Hl]%none_for_lanes. apply scan_None in Hh, Hl.
    unfold bring_forward_for_agent. by rewrite Hh, Hl.
Qed.

Lemma bring_forward_for_agent_spec_witness :
  (none_for "rag" [Sample.for_seo] ∧
   first_for "rag" [Sample.rag_low; Sample.rag_urgent] 0 Sample.rag_low) ∧
  let s := mkQueue [Sample.for_seo] [Sample.rag_low; Sample.rag_urgent] ∅ in
  peek_for_agent "rag" s = Some (mkPeekInfo Sample.rag_low "low" 0) ∧
  bring_forward_for_agent "rag" s =
    (true, mkQueue [Sample.rag_low; Sample.for_seo] [Sample.rag_urgent] ∅) ∧
  (dequeue_for_agent "rag" (bring_forward_for_agent "rag" s).2).1 = Some Sample.rag_low.
Proof.
  assert (Hn : none_for "rag" [Sample.for_seo]).
  { intros j Hj. apply list_elem_of_singleton in Hj as ->. discriminate. }
  assert (Hf : first_for "rag" [Sample.rag_low; Sample.rag_urgent] 0 Sample.rag_low).
  { by apply first_for_here. }
  split; [by split|].
  exact (proj1 (proj2 (bring_forward_for_agent_spec "rag"
           (mkQueue [Sample.for_seo] [Sample.rag_low; Sample.rag_urgent] ∅)))
         0 Sample.rag_low Hn Hf).
Defined.

(** ** C7: [skip_next_for_agent] *)

Lemma jobs_for_push_back (a : string) (q : list Job) (j : Job) :
  agent j = a → jobs_for a (Deque.push_back j q) = jobs_for a q ++ [j].
Proof.
  intros Ha. unfold Deque.push_back. rewrite jobs_for_app. f_equal.
  unfold jobs_for. by rewrite filter_cons_True.
Qed.

(** C7: [skip_next_for_agent a] finds the head-for-agent job by the
    high-then-low scan, takes it out of its lane, appends it to the tail
    of that same lane and returns true; with no job for [a] queued it
    returns false and the state is the one before.  When exactly one job
    for [a] is queued the call returns true, the jobs for [a] in each
    lane are what they were, and [dequeue_for_agent a] still returns
    that job. *)
Theorem skip_next_for_agent_spec (a : string) (s : InMemoryPriorityQueue) :
  (∀ i j, first_for a (high_ s) i j →
     skip_next_for_agent a s =
       (true, mkQueue (delete i (high_ s) ++ [j]) (low_ s) (inflight_ s))) ∧
  (∀ i j, none_for a (high_ s) → first_for a (low_ s) i j →
     skip_next_for_agent a s =
       (true, mkQueue (high_ s) (delete i (low_ s) ++ [j]) (inflight_ s))) ∧
  (none_for a (lanes s) → skip_next_for_agent a s = (false, s)) ∧
  (∀ j, jobs_for a (lanes s) = [j] →
     let r := skip_next_for_agent a s in
     r.1 = true ∧
     jobs_for a (high_ r.2) = jobs_for a (high_ s) ∧
     jobs_for a (low_ r.2) = jobs_for a (low_ s) ∧
     inflight_ r.2 = inflight_ s ∧
     (dequeue_for_agent a r.2).1 = Some j).
Proof.
  split; [|split; [|split]].
  - intros i j Hf. apply scan_Some in Hf. unfold skip_next_for_agent. by rewrite Hf.
  - intros i j Hn Hf. apply scan_None in Hn. apply scan_Some in Hf.
    unfold skip_next_for_agent. by rewrite Hn, Hf.
  - intros [Hh Hl]%none_for_lanes. apply scan_None in Hh, Hl.
    unfold skip_next_for_agent. by rewrite Hh, Hl.
  - intros j Hone r. subst r. unfold lanes in Hone. rewrite jobs_for_app in Hone.
    rewrite dequeue_for_agent_head. unfold lanes. rewrite jobs_for_app.
    unfold skip_next_for_agent.
    destruct (first_for_or_none a (high_ s)) as [(i & j' & Hf)|Hn].
    + pose proof Hf as (_ & Ha & _).
      rewrite (jobs_for_first _ _ _ _ Hf) in Hone |- *.
      apply scan_Some in Hf. rewrite Hf. simpl.
      injection Hone as -> Hrest. apply app_eq_nil in Hrest as [Hr Hl].
      unfold Deque.erase. rewrite jobs_for_push_back by done.
      rewrite Hr, Hl. done.
    + pose proof Hn as Hs. apply scan_None in Hs. rewrite Hs.
      apply jobs_for_none in Hn. rewrite Hn in Hone |- *. simpl in Hone.
      destruct (first_for_or_none a (low_ s)) as [(i & j' & Hf)|Hn'].
      * pose proof Hf as (_ & Ha & _).
        rewrite (jobs_for_first _ _ _ _ Hf) in Hone |- *.
        apply scan_Some in Hf. rewrite Hf. simpl.
        injection Hone as -> Hr.
        unfold Deque.erase. rewrite jobs_for_push_back by done.
        rewrite Hn, Hr. done.
      * apply jobs_for_none in Hn'. by rewrite Hn' in Hone.
Qed.

Lemma skip_next_for_agent_spec_witness :
  jobs_for "seo" (lanes Sample.two_lanes) = [Sample.for_seo] ∧
  let r := skip_next_for_agent "seo" Sample.two_lanes in
  r.1 = true ∧
  jobs_for "seo" (high_ r.2) = jobs_for "seo" (high_ Sample.two_lanes) ∧
  jobs_for "seo" (low_ r.2) = jobs_for "seo" (low_ Sample.two_lanes) ∧
  inflight_ r.2 = inflight_ Sample.two_lanes ∧
  (dequeue_for_agent "seo" r.2).1 = Some Sample.for_seo.
Proof.
  assert (H : jobs_for "seo" (lanes Sample.two_lanes) = [Sample.for_seo])
    by (vm_compute; reflexivity).
  split; [exact H|].
  exact (proj2 (proj2 (proj2 (skip_next_for_agent_spec "seo" Sample.two_lanes)))
           Sample.for_seo H).
Defined.

(** ** C9: conservation of jobs *)

Lemma snapshot_sizes (s : InMemoryPriorityQueue) :
  length (snap_high (snapshot s)) + length (snap_low (snapshot s)) = length (lanes s) ∧
  length (snap_inflight (snapshot s)) = size (inflight_ s).
Proof.
  unfold snapshot, lanes. simpl. split.
  - by rewrite length_app.
  - by rewrite length_fmap, length_map_to_list.
Qed.

Lemma size_delete_present (m : gmap string Job) (k : string) :
  is_Some (m !! k) → size m = S (size (delete k m)).
Proof.
  intros [j Hj]. rewrite <- (insert_delete_id m k j Hj) at 1.
  apply map_size_insert_None, lookup_delete_eq.
Qed.

(** Queued jobs: each call moves the count by what it returned. *)
Lemma count_lanes (o : Op) (s : InMemoryPriorityQueue) (t : Tally) :
  enqueued t = dequeued t + cancelled t + length (lanes s) →
  enqueued (count o s t) =
    dequeued (count o s t) + cancelled (count o s t) + length (lanes (step o s)).
Proof.
  intros H. destruct o as [j|a|key ok detail|a|a|a]; simpl.
  - destruct (enqueue_lanes j s) as [Hp _]. rewrite Hp. simpl. lia.
  - pose proof (dequeue_for_agent_lanes a s) as Hd.
    destruct (dequeue_for_agent a s) as [[j|] s']; simpl.
    + destruct Hd as (_ & Hp & _). rewrite Hp in H. simpl in H. lia.
    + destruct Hd as [-> _]. done.
  - done.
  - destruct (cancel_queued_for_agent_lanes a s) as (_ & _ & _ & _ & Hn).
    simpl in Hn. lia.
  - destruct (skip_next_for_agent_lanes a s) as [Hp _]. by rewrite Hp.
  - destruct (bring_forward_for_agent_lanes a s) as [Hp _]. by rewrite Hp.
Qed.

(** Inflight jobs, in a well-formed state. *)
Lemma count_inflight (o : Op) (s : InMemoryPriorityQueue) (t : Tally) :
  well_formed s →
  dequeued t = retired t + size (inflight_ s) →
  dequeued (count o s t) = retired (count o s t) + size (inflight_ (step o s)).
Proof.
  intros (_ & Hdisj & _) H. destruct o as [j|a|key ok detail|a|a|a]; simpl.
  - destruct (enqueue_lanes j s) as [_ ->]. done.
  - pose proof (dequeue_for_agent_lanes a s) as Hd.
    destruct (dequeue_for_agent a s) as [[j|] s']; simpl.
    + destruct Hd as (_ & Hp & ->).
      assert (Hj : inflight_ s !! id j = None).
      { apply Hdisj. rewrite Hp. by left. }
      unfold emplace. rewrite Hj. rewrite map_size_insert_None by done. lia.
    + destruct Hd as [-> _]. done.
  - case_bool_decide as Hk.
    + simpl. rewrite (size_delete_present _ _ Hk) in H. lia.
    + simpl. rewrite map_size_delete_None; [done|].
      by apply eq_None_not_Some.
  - done.
  - destruct (skip_next_for_agent_lanes a s) as [_ ->]. done.
  - destruct (bring_forward_for_agent_lanes a s) as [_ ->]. done.
Qed.

Lemma tally_lanes (ops : list Op) (s : InMemoryPriorityQueue) (t : Tally) :
  enqueued t = dequeued t + cancelled t + length (lanes s) →
  enqueued (tally ops s t) =
    dequeued (tally ops s t) + cancelled (tally ops s t) + length (lanes (run ops s)).
Proof.
  revert s t. induction ops as [|o ops IH]; intros s t H; [done|].
  simpl. apply IH. by apply count_lanes.
Qed.

Lemma tally_inflight (ops : list Op) (s : InMemoryPriorityQueue) (t : Tally) :
  fresh_enqueues ops s = true → well_formed s →
  dequeued t = retired t + size (inflight_ s) →
  dequeued (tally ops s t) = retired (tally ops s t) + size (inflight_ (run ops s)).
Proof.
  revert s t. induction ops as [|o ops IH]; intros s t Hfr Hwf H; [done|].
  simpl in *. apply andb_true_iff in Hfr as [Ho Hrest].
  apply IH; [done | | by apply count_inflight].
  apply step_well_formed; [|done].
  destruct o; try done. by apply bool_decide_eq_true in Ho.
Qed.

(** C9, as the claim words it, fails on its second equation: a
    [complete] of an id that is not inflight is a call of [complete] and
    removes nothing. *)
Lemma complete_unknown_breaks_conservation :
  let ops := [OpComplete "r9" true ""] in
  let s := snapshot (run ops empty_queue) in
  let t := tally ops empty_queue no_calls in
  (Z.of_nat (dequeued t) - Z.of_nat (completed t) ≠ Z.of_nat (length (snap_inflight s)))%Z.
Proof. vm_compute. discriminate. Qed.

(** C9, amended: after any run from the empty queue, the enqueue calls
    minus the dequeue calls that returned a job minus the counts the
    cancel calls returned is the size of the high lane plus the size of
    the low lane; and when each enqueue of the run brought an id that was
    not live, the dequeue calls that returned a job minus the complete
    calls whose id was in the inflight table is the size of the inflight
    table. *)
Theorem snapshot_conservation (ops : list Op) :
  let s := snapshot (run ops empty_queue) in
  let t := tally ops empty_queue no_calls in
  (Z.of_nat (enqueued t) - Z.of_nat (dequeued t) - Z.of_nat (cancelled t) =
     Z.of_nat (length (snap_high s)) + Z.of_nat (length (snap_low s)))%Z ∧
  (fresh_enqueues ops empty_queue = true →
   (Z.of_nat (dequeued t) - Z.of_nat (retired t) =
      Z.of_nat (length (snap_inflight s)))%Z).
Proof.
  intros s t. subst s t.
  destruct (snapshot_sizes (run ops empty_queue)) as [Hl Hi]. split.
  - pose proof (tally_lanes ops empty_queue no_calls eq_refl). lia.
  - intros Hfr.
    pose proof (tally_inflight ops empty_queue no_calls Hfr
                  empty_queue_well_formed eq_refl). lia.
Qed.

Lemma snapshot_conservation_witness :
  let ops := [OpEnqueue Sample.rag_low; OpEnqueue Sample.rag_high;
              OpEnqueue Sample.for_seo; OpDequeue "rag"; OpDequeue "nobody";
              OpComplete "r9" true ""; OpCancel "seo"; OpDequeue "rag";
              OpComplete "r1" true ""; OpComplete "r1" true ""] in
  let s := snapshot (run ops empty_queue) in
  let t := tally ops empty_queue no_calls in
  fresh_enqueues ops empty_queue = true ∧
  (Z.of_nat (dequeued t) - Z.of_nat (retired t) =
     Z.of_nat (length (snap_inflight s)))%Z.
Proof.
  intros ops s t.
  assert (Hfr : fresh_enqueues ops empty_queue = true) by (vm_compute; reflexivity).
  split; [exact Hfr|]. exact (proj2 (snapshot_conservation ops) Hfr).
Defined.

(** ** The handler *)

(** Decide the route tests of [handler_try] that compare literals. *)
Ltac decide_test t :=
  let v := eval vm_compute in t in
  match v with
  | true => change t with true
  | false => change t with false
  end.

Ltac route :=
  unfold handler, handler_try; cbn [url method body request];
  repeat match goal with
         | |- context [String.eqb ?x ?y] => decide_test (String.eqb x y)
         | |- context [String.prefix ?x ?y] => decide_test (String.prefix x y)
         end;
  cbn [andb].

Lemma agent_arg_Some (connection : gmap string string) (a : string) :
  a ≠ "" → connection !! "agent" = Some a →
  agent_arg (parse_query connection) = Some a.
Proof.
  intros Ha Hq. unfold agent_arg, parse_query. rewrite Hq.
  apply String.eqb_neq in Ha. by rewrite Ha.
Qed.

Lemma agent_arg_inv (connection : gmap string string) (a : string) :
  agent_arg (parse_query connection) = Some a →
  a ≠ "" ∧ connection !! "agent" = Some a.
Proof.
  unfold agent_arg, parse_query. destruct (connection !! "agent") as [a'|]; [|done].
  destruct (String.eqb a' "") eqn:E; [done|]. intros [= ->].
  by apply String.eqb_neq in E.
Qed.

Lemma substring_all (s : string) : String.substring 0 (String.length s) s = s.
Proof. induction s as [|c s IH]; [done|]. simpl. by rewrite IH. Qed.

(** The path [/complete/{key}] is routed to the completion branch with
    [key] as the id. *)
Lemma complete_path_prefix (key : string) :
  String.prefix "/complete/" ("/complete/" ++ key) = true.
Proof. cbv [String.append]. cbn. by destruct key. Qed.

Lemma complete_path_key (key : string) :
  String.substring (String.length "/complete/")
    (String.length ("/complete/" ++ key) - String.length "/complete/")
    ("/complete/" ++ key) = key.
Proof. cbv [String.append]. cbn. rewrite Nat.sub_0_r. apply substring_all. Qed.

(** ** C10: [POST /complete/] *)

Section CompleteWithoutId.

Variable json_parse : string → option json.
Variable json_dump : json → string.
Variable what : json_exception → string.

Local Abbreviation handle := (handler json_parse json_dump what).

(** C10: a POST whose path is exactly [/complete/] is answered 400 with
    the body [{error: id required}], whatever the request body, the
    parser and the query are, and the lanes, the inflight table and the
    pause set are the ones before. *)
Theorem complete_without_id (minted : string) (connection : gmap string string)
    (text : string) (s : Server) :
  handle minted connection (request "POST" "/complete/" text) s =
    (mkResponse 400 (json_dump (JObj [("error", JStr "id required")])) "application/json", s).
Proof. reflexivity. Qed.

End CompleteWithoutId.

(** ** C4: the priority of an enqueued job *)

Section Enqueue.

Variable json_parse : string → option json.
Variable json_dump : json → string.
Variable what : json_exception → string.

Local Abbreviation handle := (handler json_parse json_dump what).
Local Abbreviation job_of := (job_of_body json_parse json_dump).

(** The priority string of the job built from a request body. *)
Lemma job_of_body_priority (minted text : string) (fields : list (string * json)) :
  json_parse text = Some (JObj fields) →
  match job_of minted text with
  | inr jb =>
      match Json.find "priority" fields with
      | None => priority jb = "low"
      | Some v => v = JStr (priority jb)
      end
  | inl e => True
  end.
Proof.
  intros Hp. unfold job_of_body, parse. rewrite Hp. simpl.
  destruct (Json.find "id" fields) as [[]|]; simpl; try done;
    destruct (Json.find "agent" fields) as [[]|]; simpl; try done;
    destruct (Json.find "model" fields) as [[]|]; simpl; try done;
    destruct (Json.find "priority" fields) as [[]|]; simpl; try done;
    destruct (Json.find "payload" fields) as [?|]; simpl; done.
Qed.

Lemma job_of_body_bad_priority (minted text : string) (fields : list (string * json))
    (v : json) :
  json_parse text = Some (JObj fields) →
  Json.find "priority" fields = Some v → (∀ p, v ≠ JStr p) →
  ∃ e, job_of minted text = inl e.
Proof.
  intros Hp Hv Hns. unfold job_of_body, parse. rewrite Hp. simpl.
  rewrite Hv.
  destruct v as [| | |sv| |]; try (by exfalso; apply (Hns sv));
    destruct (Json.find "id" fields) as [[]|]; simpl; eauto;
    destruct (Json.find "agent" fields) as [[]|]; simpl; eauto;
    destruct (Json.find "model" fields) as [[]|]; simpl; eauto.
Qed.

(** C4, amended: when [POST /enqueue] stores a job, the job is appended
    to the low lane if the body has no [priority] (its priority is then
    ["low"]) or has a [priority] string other than ["high"], and to the
    high lane only if the [priority] is exactly ["high"].  A [priority]
    that is not a string is refused with 400 and nothing is stored. *)
Theorem enqueue_priority (minted : string) (connection : gmap string string)
    (text : string) (fields : list (string * json)) (s : Server) :
  json_parse text = Some (JObj fields) →
  let r := handle minted connection (request "POST" "/enqueue" text) s in
  let q := g_queue s in
  (∀ jb, job_of minted text = inr jb →
     r.1 = send_response 200 (json_dump (JObj [("id", JStr (id jb))])) ∧
     g_paused_agents r.2 = g_paused_agents s ∧
     inflight_ (g_queue r.2) = inflight_ q ∧
     (Json.find "priority" fields = None →
        priority jb = "low" ∧
        high_ (g_queue r.2) = high_ q ∧ low_ (g_queue r.2) = low_ q ++ [jb]) ∧
     (∀ p, Json.find "priority" fields = Some (JStr p) → p ≠ "high" →
        high_ (g_queue r.2) = high_ q ∧ low_ (g_queue r.2) = low_ q ++ [jb]) ∧
     (Json.find "priority" fields = Some (JStr "high") →
        priority jb = "high" ∧
        high_ (g_queue r.2) = high_ q ++ [jb] ∧ low_ (g_queue r.2) = low_ q)) ∧
  (∀ v, Json.find "priority" fields = Some v → (∀ p, v ≠ JStr p) →
     status r.1 = 400 ∧ r.2 = s).
Proof.
  intros Hp r q. subst r q. split.
  - intros jb Hjb. pose proof (job_of_body_priority minted text fields Hp) as Hpr.
    rewrite Hjb in Hpr. route. rewrite Hjb. unfold enqueue, Deque.push_back.
    destruct (String.eqb (priority jb) "high") eqn:E; simpl.
    + apply String.eqb_eq in E.
      split; [done|]. split; [done|]. split; [done|]. split; [|split].
      * intros Hn. rewrite Hn in Hpr. congruence.
      * intros p Hs Hne. rewrite Hs in Hpr. congruence.
      * intros Hs. done.
    + apply String.eqb_neq in E.
      split; [done|]. split; [done|]. split; [done|]. split; [|split].
      * intros Hn. by rewrite Hn in Hpr.
      * intros p Hs Hne. done.
      * intros Hs. rewrite Hs in Hpr. congruence.
  - intros v Hv Hns.
    destruct (job_of_body_bad_priority minted text fields v Hp Hv Hns) as [e He].
    route. by rewrite He.
Qed.

End Enqueue.

(** C4, as the claim words it, fails: a job submitted with priority
    ["urgent"] goes to the low lane and is stored with priority
    ["urgent"]. *)
Lemma urgent_is_stored_as_urgent :
  Standin.json_parse "urgent job" =
    Some (JObj [("agent", JStr "rag"); ("model", JStr "m"); ("priority", JStr "urgent")]) ∧
  let r := Standin.handler "00ff" ∅ (request "POST" "/enqueue" "urgent job") Standin.idle in
  status r.1 = 200 ∧
  high_ (g_queue r.2) = [] ∧
  low_ (g_queue r.2) = [mkJob "00ff" "rag" "m" "urgent" "{}"] ∧
  priority <$> low_ (g_queue r.2) ≠ ["low"].
Proof. vm_compute. repeat split; discriminate. Qed.

Lemma enqueue_priority_witness :
  let fields := [("agent", JStr "rag"); ("model", JStr "m"); ("priority", JStr "urgent")] in
  let jb := mkJob "00ff" "rag" "m" "urgent" "{}" in
  let r := Standin.handler "00ff" ∅ (request "POST" "/enqueue" "urgent job") Standin.idle in
  (Standin.json_parse "urgent job" = Some (JObj fields) ∧
   job_of_body Standin.json_parse Standin.json_dump "00ff" "urgent job" = inr jb ∧
   Json.find "priority" fields = Some (JStr "urgent") ∧ "urgent" ≠ "high") ∧
  high_ (g_queue r.2) = [] ∧ low_ (g_queue r.2) = [jb].
Proof.
  intros fields jb r.
  assert (Hp : Standin.json_parse "urgent job" = Some (JObj fields)) by reflexivity.
  assert (Hjb : job_of_body Standin.json_parse Standin.json_dump "00ff" "urgent job" = inr jb)
    by reflexivity.
  assert (Hf : Json.find "priority" fields = Some (JStr "urgent")) by reflexivity.
  assert (Hne : "urgent" ≠ "high") by discriminate.
  split; [done|].
  pose proof (enqueue_priority Standin.json_parse Standin.json_dump Standin.what
                "00ff" ∅ "urgent job" fields Standin.idle Hp) as [H _].
  destruct (H jb Hjb) as (_ & _ & _ & _ & Hlow & _).
  exact (Hlow "urgent" Hf Hne).
Defined.

(** ** C6: [POST /control/stop] *)

Lemma removed_count (a : string) (q : list Job) :
  (remove_from a q).1 = length (jobs_for a q) ∧
  (remove_from a q).1 + length (remove_from a q).2 = length q.
Proof.
  unfold remove_from, jobs_for. simpl. rewrite remove_if_agent_filter.
  pose proof (filter_app_complement (λ j, agent j = a) q) as Hp.
  apply Permutation_length in Hp. rewrite length_app in Hp. lia.
Qed.

Section Stop.

Variable json_parse : string → option json.
Variable json_dump : json → string.
Variable what : json_exception → string.

Local Abbreviation handle := (handler json_parse json_dump what).

(** C6: for an agent name [a] (a non-empty string), [POST
    /control/stop?agent=a] leaves the state that [/control/pause?agent=a]
    followed by [DELETE /jobs?agent=a] leaves: [a] is in the pause set,
    neither lane holds a job for [a], the inflight table is the one
    before, and the answer is 200 with [ok] true, [paused] true and
    [removed] the number of jobs taken out of the two lanes. *)
Theorem control_stop (minted minted1 minted2 : string) (connection : gmap string string)
    (text text1 text2 : string) (a : string) (s : Server) :
  a ≠ "" → connection !! "agent" = Some a →
  let r := handle minted connection (request "POST" "/control/stop" text) s in
  let q := g_queue s in
  let n := length (jobs_for a (high_ q)) + length (jobs_for a (low_ q)) in
  r.1 = send_response 200
          (json_dump (JObj [("ok", JBool true); ("paused", JBool true);
                            ("removed", Json.of_size n)])) ∧
  r.2 = mkServer (cancel_queued_for_agent a q).2 ({[a]} ∪ g_paused_agents s) ∧
  r.2 = (handle minted2 connection (request "DELETE" "/jobs" text2)
           (handle minted1 connection (request "POST" "/control/pause" text1) s).2).2 ∧
  a ∈ g_paused_agents r.2 ∧
  none_for a (high_ (g_queue r.2)) ∧ none_for a (low_ (g_queue r.2)) ∧
  inflight_ (g_queue r.2) = inflight_ q ∧
  n + length (lanes (g_queue r.2)) = length (lanes q).
Proof.
  intros Ha Hq r q n.
  assert (Hr : r = (send_response 200
                      (json_dump (JObj [("ok", JBool true); ("paused", JBool true);
                                        ("removed", Json.of_size n)])),
                    mkServer (cancel_queued_for_agent a q).2 ({[a]} ∪ g_paused_agents s))).
  { subst r. route. rewrite (agent_arg_Some _ _ Ha Hq).
    unfold cancel_queued_for_agent. subst n q.
    destruct (removed_count a (high_ (g_queue s))) as [H1 _].
    destruct (removed_count a (low_ (g_queue s))) as [H2 _].
    destruct (remove_from a (high_ (g_queue s))) as [n1 h].
    destruct (remove_from a (low_ (g_queue s))) as [n2 l].
    simpl in H1, H2. rewrite <- H1, <- H2. reflexivity. }
  rewrite Hr. cbn [fst snd g_paused_agents g_queue].
  split; [done|]. split; [done|]. split.
  { route. rewrite (agent_arg_Some _ _ Ha Hq). cbn [fst snd g_queue g_paused_agents].
    by destruct (cancel_queued_for_agent a (g_queue s)). }
  split; [set_solver|].
  destruct (cancel_queued_for_agent_lanes a q) as (-> & -> & -> & _ & Hn).
  split; [apply remove_if_agent_none|]. split; [apply remove_if_agent_none|].
  split; [done|]. subst n. 
  destruct (removed_count a (high_ q)) as [<- _].
  destruct (removed_count a (low_ q)) as [<- _]. exact Hn.
Qed.

End Stop.

Lemma control_stop_witness :
  let r := Standin.handler "" {["agent" := "rag"]} (request "POST" "/control/stop" "")
             Standin.busy in
  ("rag" ≠ "" ∧ ({["agent" := "rag"]} : gmap string string) !! "agent" = Some "rag") ∧
  r.1 = mkResponse 200 "{ok:true,paused:true,removed:#}" "application/json" ∧
  "rag" ∈ g_paused_agents r.2 ∧
  lanes (g_queue r.2) = [Sample.for_seo] ∧
  inflight_ (g_queue r.2) = inflight_ (g_queue Standin.busy).
Proof.
  intros r.
  assert (Ha : "rag" ≠ "") by discriminate.
  assert (Hq : ({["agent" := "rag"]} : gmap string string) !! "agent" = Some "rag")
    by reflexivity.
  split; [done|].
  destruct (control_stop Standin.json_parse Standin.json_dump Standin.what
              "" "" "" {["agent" := "rag"]} "" "" "" "rag" Standin.busy Ha Hq)
    as (H1 & H2 & _ & H4 & _ & _ & H7 & _).
  split; [exact H1|]. split; [exact H4|]. split; [|exact H7].
  subst r. unfold Standin.handler. rewrite H2. reflexivity.
Defined.

(** ** C8: completion is idempotent *)

Section Complete.

Variable json_parse : string → option json.
Variable json_dump : json → string.
Variable what : json_exception → string.

Local Abbreviation handle := (handler json_parse json_dump what).

Lemma completion_of_body_document (text : string) (doc : json) :
  json_parse text = Some doc → completion_document doc →
  ∃ ok detail, completion_of_body json_parse text = inr (ok, detail).
Proof.
  intros Hp Hdoc. unfold completion_of_body, parse. rewrite Hp. simpl.
  destruct doc as [| | | | |fields]; try done. destruct Hdoc as [Hst Herr]. simpl.
  destruct (Json.find "status" fields) as [v|].
  - destruct (Hst v eq_refl) as [st ->]. simpl.
    destruct (Json.find "error" fields) as [v|].
    + destruct (Herr v eq_refl) as [d ->]. simpl. eauto.
    + simpl. eauto.
  - simpl. destruct (Json.find "error" fields) as [v|].
    + destruct (Herr v eq_refl) as [d ->]. simpl. eauto.
    + simpl. eauto.
Qed.

(** A completion request for a non-empty id runs [complete] on the queue
    and answers 200. *)
Lemma handler_complete (minted : string) (connection : gmap string string)
    (text : string) (doc : json) (key : string) (s : Server) :
  key ≠ "" → json_parse text = Some doc → completion_document doc →
  ∃ ok detail,
    handle minted connection (request "POST" ("/complete/" ++ key) text) s =
      (send_response 200 (json_dump (JObj [("ok", JBool true)])),
       mkServer (complete key ok detail (g_queue s)) (g_paused_agents s)).
Proof.
  intros Hk Hp Hdoc.
  destruct (completion_of_body_document text doc Hp Hdoc) as (ok & detail & Hc).
  exists ok, detail. route. rewrite complete_path_prefix, complete_path_key.
  apply String.eqb_neq in Hk. rewrite Hk, Hc. reflexivity.
Qed.

(** C8: [complete] removes the id from the inflight table when it is
    there and changes nothing when it is not, the lanes being the ones
    before in both cases; and a [POST /complete/{id}] with a completion
    document as its body is answered 200 [{ok: true}] whether or not the
    id is inflight: for an id that is not inflight, and so for a second
    completion of the same id, the server state is the one before. *)
Theorem complete_is_idempotent (key : string) (s : Server) :
  let q := g_queue s in
  (∀ ok detail,
     let q' := complete key ok detail q in
     high_ q' = high_ q ∧ low_ q' = low_ q ∧
     inflight_ q' !! key = None ∧
     (∀ k, k ≠ key → inflight_ q' !! k = inflight_ q !! k) ∧
     (inflight_ q !! key = None → q' = q)) ∧
  (∀ minted minted' connection connection' text text' doc doc',
     key ≠ "" →
     json_parse text = Some doc → completion_document doc →
     json_parse text' = Some doc' → completion_document doc' →
     let ok200 := send_response 200 (json_dump (JObj [("ok", JBool true)])) in
     let r1 := handle minted connection (request "POST" ("/complete/" ++ key) text) s in
     let r2 := handle minted' connection' (request "POST" ("/complete/" ++ key) text') r1.2 in
     r1.1 = ok200 ∧
     high_ (g_queue r1.2) = high_ q ∧ low_ (g_queue r1.2) = low_ q ∧
     inflight_ (g_queue r1.2) = delete key (inflight_ q) ∧
     g_paused_agents r1.2 = g_paused_agents s ∧
     (inflight_ q !! key = None → r1.2 = s) ∧
     r2 = (ok200, r1.2)).
Proof.
  intros q.
  assert (Hnoop : ∀ ok detail (q0 : InMemoryPriorityQueue),
            inflight_ q0 !! key = None → complete key ok detail q0 = q0).
  { intros ok detail [h l m] Hm. unfold complete.
    cbn [high_ low_ inflight_] in *. by rewrite delete_id. }
  split.
  - intros ok detail q'. subst q'. unfold complete. simpl.
    split; [done|]. split; [done|]. split; [apply lookup_delete_eq|].
    split; [intros k Hk; by apply lookup_delete_ne|].
    intros Hm. by apply (Hnoop ok detail q).
  - intros minted minted' connection connection' text text' doc doc'
      Hk Hp Hdoc Hp' Hdoc' ok200 r1 r2.
    destruct (handler_complete minted connection text doc key s Hk Hp Hdoc)
      as (ok & detail & H1).
    destruct (handler_complete minted' connection' text' doc' key r1.2 Hk Hp' Hdoc')
      as (ok' & detail' & H2).
    subst r2. rewrite H2. subst r1. rewrite H1. subst ok200 q.
    cbn [fst snd g_queue g_paused_agents complete high_ low_ inflight_].
    split; [done|]. split; [done|]. split; [done|]. split; [done|]. split; [done|].
    split.
    + intros Hm. destruct s as [[h l m] P].
      unfold complete. cbn [g_queue g_paused_agents high_ low_ inflight_] in *.
      by rewrite delete_id.
    + unfold complete. cbn [g_queue g_paused_agents high_ low_ inflight_].
      rewrite (delete_id (delete key (inflight_ (g_queue s))) key); [done|].
      apply lookup_delete_eq.
Qed.

End Complete.

Lemma complete_is_idempotent_witness :
  let ok200 := mkResponse 200 "{ok:true}" "application/json" in
  let r1 := Standin.handler "" ∅ (request "POST" "/complete/r7" "status ok") Standin.busy in
  let r2 := Standin.handler "" ∅ (request "POST" "/complete/r7" "{}") r1.2 in
  ("r7" ≠ "" ∧
   Standin.json_parse "status ok" = Some Standin.status_ok ∧
   completion_document Standin.status_ok ∧
   Standin.json_parse "{}" = Some (JObj []) ∧ completion_document (JObj [])) ∧
  r1.1 = ok200 ∧ inflight_ (g_queue r1.2) = delete "r7" (inflight_ (g_queue Standin.busy)) ∧
  r2 = (ok200, r1.2).
Proof.
  intros ok200 r1 r2.
  assert (Hk : "r7" ≠ "") by discriminate.
  assert (Hd : completion_document Standin.status_ok).
  { split; intros v Hv; vm_compute in Hv; [|discriminate].
    injection Hv as <-. by exists "ok". }
  assert (Hd' : completion_document (JObj [])).
  { split; intros v Hv; discriminate. }
  split; [done|].
  destruct (proj2 (complete_is_idempotent Standin.json_parse Standin.json_dump
                     Standin.what "r7" Standin.busy)
              "" "" ∅ ∅ "status ok" "{}" Standin.status_ok (JObj [])
              Hk eq_refl Hd eq_refl Hd')
    as (H1 & _ & _ & H4 & _ & _ & H7).
  split; [exact H1|]. split; [exact H4 | exact H7].
Defined.

(** ** C3: the pause gate *)

Section Pause.

Variable json_parse : string → option json.
Variable json_dump : json → string.
Variable what : json_exception → string.

Local Abbreviation handle := (handler json_parse json_dump what).
Local Abbreviation try := (handler_try json_parse json_dump).
Local Abbreviation serving := (serve json_parse json_dump what).

Lemma handler_state (minted : string) (connection : gmap string string)
    (ci : ConnInfo) (s : Server) :
  (handle minted connection ci s).2 = (try minted connection ci s).2.
Proof. unfold handler. by destruct (try minted connection ci s) as [[e|r] s']. Qed.

Lemma route_test (ci : ConnInfo) (m p : string) :
  String.eqb (method ci) m && String.eqb (url ci) p = true →
  method ci = m ∧ url ci = p.
Proof. intros [Hm Hp]%andb_true_iff. by apply String.eqb_eq in Hm, Hp. Qed.

(** Only [/control/resume?agent=a] takes [a] out of the pause set. *)
Lemma handler_keeps_paused (minted : string) (connection : gmap string string)
    (ci : ConnInfo) (s : Server) (a : string) :
  a ∈ g_paused_agents s → ¬ is_resume_of a connection ci →
  a ∈ g_paused_agents (handle minted connection ci s).2.
Proof.
  intros Hin Hnr. rewrite handler_state. unfold handler_try. cbv beta zeta.
  destruct (String.eqb (method ci) "POST" && String.eqb (url ci) "/enqueue");
    [by repeat case_match|].
  destruct (String.eqb (method ci) "GET" && String.eqb (url ci) "/dequeue");
    [by repeat case_match|].
  destruct (String.eqb (method ci) "GET" && String.eqb (url ci) "/stats"); [done|].
  destruct (String.eqb (method ci) "POST" && String.eqb (url ci) "/control/pause").
  { case_match; [|done]. cbn. set_solver. }
  destruct (String.eqb (method ci) "POST" && String.eqb (url ci) "/control/resume") eqn:E.
  { apply route_test in E as [Hm Hu].
    destruct (agent_arg (parse_query connection)) as [a'|] eqn:Ea; [|done].
    apply agent_arg_inv in Ea as [_ Ha']. cbn.
    destruct (decide (a' = a)) as [->|Hne]; [|set_solver].
    exfalso. by apply Hnr. }
  destruct (String.eqb (method ci) "GET" && String.eqb (url ci) "/control/state"); [done|].
  destruct (String.eqb (method ci) "DELETE" && String.eqb (url ci) "/jobs");
    [by repeat case_match|].
  destruct (String.eqb (method ci) "POST" && String.prefix "/complete/" (url ci));
    [by repeat case_match|].
  destruct (String.eqb (method ci) "GET" && String.eqb (url ci) "/peek");
    [by repeat case_match|].
  destruct (String.eqb (method ci) "POST" && String.eqb (url ci) "/control/skip_next");
    [by repeat case_match|].
  destruct (String.eqb (method ci) "POST" && String.eqb (url ci) "/control/bring_forward");
    [by repeat case_match|].
  destruct (String.eqb (method ci) "POST" && String.eqb (url ci) "/control/stop");
    [|done].
  repeat case_match; try done. cbn. set_solver.
Qed.

Lemma serve_keeps_paused (reqs : list Request) (s : Server) (a : string) :
  a ∈ g_paused_agents s →
  Forall (λ r : Request, ¬ is_resume_of a r.1.2 r.2) reqs →
  a ∈ g_paused_agents (serving reqs s).
Proof.
  revert s. induction reqs as [|[[minted connection] ci] reqs IH]; intros s Hin Hall; [done|].
  apply Forall_cons in Hall as [Hr Hall]. simpl.
  apply IH; [|done]. by apply handler_keeps_paused.
Qed.

Lemma dequeue_while_paused (minted : string) (connection : gmap string string)
    (text : string) (s : Server) (a : string) :
  a ≠ "" → connection !! "agent" = Some a → a ∈ g_paused_agents s →
  handle minted connection (request "GET" "/dequeue" text) s = (send_no_content, s).
Proof.
  intros Ha Hq Hin. route. rewrite (agent_arg_Some _ _ Ha Hq).
  by rewrite bool_decide_eq_true_2.
Qed.

(** C3: once [POST /control/pause?agent=a] has been served, and as long
    as no [POST /control/resume?agent=a] is, every [GET /dequeue?agent=a]
    is answered 204 with an empty body and leaves the lanes, the inflight
    table and the pause set as they were.  With [a] paused, enqueue,
    complete, cancel, peek, skip_next and bring_forward requests for [a]
    are served by the queue as usual. *)
Theorem pause_gate (a : string) :
  a ≠ "" →
  (∀ s minted connection text reqs minted' connection' text',
     connection !! "agent" = Some a → connection' !! "agent" = Some a →
     Forall (λ r : Request, ¬ is_resume_of a r.1.2 r.2) reqs →
     let s1 := (handle minted connection (request "POST" "/control/pause" text) s).2 in
     let s2 := serving reqs s1 in
     handle minted' connection' (request "GET" "/dequeue" text') s2 = (send_no_content, s2)) ∧
  (∀ q paused minted connection text,
     connection !! "agent" = Some a → a ∈ paused →
     let srv := mkServer q paused in
     let answer (j : json) := send_response 200 (json_dump j) in
     (∀ jb, job_of_body json_parse json_dump minted text = inr jb →
        handle minted connection (request "POST" "/enqueue" text) srv =
          (answer (JObj [("id", JStr (id jb))]), mkServer (enqueue jb q).2 paused)) ∧
     (∀ key ok detail, key ≠ "" →
        completion_of_body json_parse text = inr (ok, detail) →
        handle minted connection (request "POST" ("/complete/" ++ key) text) srv =
          (answer (JObj [("ok", JBool true)]), mkServer (complete key ok detail q) paused)) ∧
     handle minted connection (request "DELETE" "/jobs" text) srv =
       (answer (JObj [("removed", Json.of_size (cancel_queued_for_agent a q).1)]),
        mkServer (cancel_queued_for_agent a q).2 paused) ∧
     (peek_for_agent a q = None →
        handle minted connection (request "GET" "/peek" text) srv = (send_no_content, srv)) ∧
     (∀ p jj, peek_for_agent a q = Some p →
        job_json json_parse (job p) = inr jj →
        handle minted connection (request "GET" "/peek" text) srv =
          (answer (JObj [("job", jj); ("lane", JStr (lane p));
                         ("position", Json.of_size (position p))]), srv)) ∧
     handle minted connection (request "POST" "/control/skip_next" text) srv =
       (answer (JObj [("ok", JBool (skip_next_for_agent a q).1)]),
        mkServer (skip_next_for_agent a q).2 paused) ∧
     handle minted connection (request "POST" "/control/bring_forward" text) srv =
       (answer (JObj [("ok", JBool (bring_forward_for_agent a q).1)]),
        mkServer (bring_forward_for_agent a q).2 paused)).
Proof.
  intros Ha. split.
  - intros s minted connection text reqs minted' connection' text' Hq Hq' Hall s1 s2.
    apply (dequeue_while_paused _ _ _ _ a); [done | done |].
    apply serve_keeps_paused; [|done].
    subst s1. rewrite handler_state. unfold handler_try. cbn [url method body request].
    rewrite (agent_arg_Some _ _ Ha Hq). cbn. set_solver.
  - intros q paused minted connection text Hq Hin srv answer. subst srv answer.
    pose proof (agent_arg_Some _ _ Ha Hq) as Hag.
    split; [|split; [|split; [|split; [|split; [|split]]]]].
    + intros jb Hjb. route. rewrite Hjb. cbn [g_queue g_paused_agents].
      by destruct (enqueue jb q).
    + intros key ok detail Hk Hc. route.
      rewrite complete_path_prefix, complete_path_key.
      apply String.eqb_neq in Hk. by rewrite Hk, Hc.
    + route. rewrite Hag. cbn [g_queue g_paused_agents].
      by destruct (cancel_queued_for_agent a q).
    + intros Hp. route. rewrite Hag. cbn [g_queue]. by rewrite Hp.
    + intros p jj Hp Hjj. route. rewrite Hag. cbn [g_queue]. rewrite Hp.
      unfold job_json in *. by rewrite Hjj.
    + route. rewrite Hag. cbn [g_queue g_paused_agents].
      by destruct (skip_next_for_agent a q).
    + route. rewrite Hag. cbn [g_queue g_paused_agents].
      by destruct (bring_forward_for_agent a q).
Qed.

End Pause.

Lemma pause_gate_witness :
  let rag : gmap string string := {["agent" := "rag"]} in
  let seo : gmap string string := {["agent" := "seo"]} in
  let reqs : list Request :=
    [("00aa", ∅, request "POST" "/enqueue" "urgent job");
     ("", seo, request "POST" "/control/resume" "");
     ("", rag, request "POST" "/control/skip_next" "");
     ("", rag, request "GET" "/dequeue" "")] in
  let s1 := (Standin.handler "" rag (request "POST" "/control/pause" "") Standin.busy).2 in
  let s2 := Standin.serve reqs s1 in
  ("rag" ≠ "" ∧ Forall (λ r : Request, ¬ is_resume_of "rag" r.1.2 r.2) reqs) ∧
  Standin.handler "" rag (request "GET" "/dequeue" "") s2 =
    (mkResponse 204 "" "text/plain", s2).
Proof.
  intros rag seo reqs s1 s2.
  assert (Ha : "rag" ≠ "") by discriminate.
  assert (Hall : Forall (λ r : Request, ¬ is_resume_of "rag" r.1.2 r.2) reqs).
  { repeat apply Forall_cons_2; try apply Forall_nil_2;
      intros (Hm & Hu & Hq); vm_compute in Hm, Hu, Hq; discriminate. }
  split; [done|].
  exact (proj1 (pause_gate Standin.json_parse Standin.json_dump Standin.what "rag" Ha)
           Standin.busy "" rag "" reqs "" rag "" eq_refl eq_refl Hall).
Defined.

(** ** The end-to-end scenarios, on the queue *)

Example priority_overtakes :
  let q1 := mkJob "1" "rag" "m" "low" "q1" in
  let q2 := mkJob "2" "rag" "m" "high" "q2" in
  let s := run [OpEnqueue q1; OpEnqueue q2] empty_queue in
  (dequeue_for_agent "rag" s).1 = Some q2.
Proof. reflexivity. Qed.

Example agent_isolation :
  let i1 := mkJob "1" "A" "m" "low" "i1" in
  let i2 := mkJob "2" "B" "m" "low" "i2" in
  let s := run [OpEnqueue i1; OpEnqueue i2] empty_queue in
  let '(d1, s1) := dequeue_for_agent "B" s in
  let '(d2, s2) := dequeue_for_agent "B" s1 in
  let '(d3, _) := dequeue_for_agent "A" s2 in
  (d1, d2, d3) = (Some i2, None, Some i1).
Proof. reflexivity. Qed.

Example bring_forward_across_lanes :
  let i2 := mkJob "2" "A" "m" "low" "i2" in
  let s := run [OpEnqueue i2] empty_queue in
  let '(moved, s1) := bring_forward_for_agent "A" s in
  (moved, high_ s1, low_ s1, priority <$> (dequeue_for_agent "A" s1).1) =
  (true, [i2], [], Some "low").
Proof. reflexivity. Qed.

Example skip_next_rotates :
  let i1 := mkJob "1" "A" "m" "low" "i1" in
  let j1 := mkJob "2" "B" "m" "low" "j1" in
  let i2 := mkJob "3" "A" "m" "low" "i2" in
  let s := run [OpEnqueue i1; OpEnqueue j1; OpEnqueue i2] empty_queue in
  let '(moved, s1) := skip_next_for_agent "A" s in
  let '(d1, s2) := dequeue_for_agent "A" s1 in
  let '(d2, _) := dequeue_for_agent "A" s2 in
  (moved, d1, d2) = (true, Some i2, Some i1).
Proof. reflexivity. Qed.

(** * Further properties of the queue *)

(** ** Dispatch order *)

Lemma jobs_for_delete_other (b : string) (q : list Job) (i : nat) (j : Job) :
  q !! i = Some j → agent j ≠ b → jobs_for b (delete i q) = jobs_for b q.
Proof.
  unfold jobs_for. revert i. induction q as [|j0 q IH]; intros i Hl Hne; [done|].
  destruct i as [|i]; simpl in *.
  - injection Hl as ->. by rewrite filter_cons_False.
  - destruct (decide (agent j0 = b)) as [Hb|Hb].
    + rewrite !filter_cons_True by done. f_equal. by apply IH.
    + rewrite !filter_cons_False by done. by apply IH.
Qed.

Lemma jobs_for_cons_other (b : string) (j : Job) (q : list Job) :
  agent j ≠ b → jobs_for b (j :: q) = jobs_for b q.
Proof. intros Hne. unfold jobs_for. by rewrite filter_cons_False. Qed.

Lemma jobs_for_cons_same (j : Job) (q : list Job) :
  jobs_for (agent j) (j :: q) = j :: jobs_for (agent j) q.
Proof. unfold jobs_for. by rewrite filter_cons_True. Qed.

Lemma jobs_for_snoc_other (b : string) (j : Job) (q : list Job) :
  agent j ≠ b → jobs_for b (q ++ [j]) = jobs_for b q.
Proof.
  intros Hne. rewrite jobs_for_app, jobs_for_cons_other by done.
  apply app_nil_r.
Qed.

(** One [dequeue_for_agent a]: the job handed out is the first of the
    jobs for [a]; the rest stays in order, and so do the jobs of every
    other agent, lane by lane. *)
Lemma dequeue_for_agent_views (a : string) (s : InMemoryPriorityQueue) :
  match dequeue_for_agent a s with
  | (Some j, s') =>
      jobs_for a (lanes s) = j :: jobs_for a (lanes s') ∧
      ∀ b, b ≠ a →
        jobs_for b (high_ s') = jobs_for b (high_ s) ∧
        jobs_for b (low_ s') = jobs_for b (low_ s)
  | (None, s') => s' = s ∧ jobs_for a (lanes s) = []
  end.
Proof.
  unfold dequeue_for_agent, pop_from, Deque.erase, lanes.
  destruct (Deque.scan a (high_ s)) as [[i j]|] eqn:Eh.
  - apply scan_Some in Eh. pose proof Eh as (Hl & Ha & _). simpl. split.
    + rewrite !jobs_for_app. by rewrite (jobs_for_first _ _ _ _ Eh).
    + intros b Hb. split; [|done]. apply (jobs_for_delete_other b _ _ j); congruence.
  - destruct (Deque.scan a (low_ s)) as [[i j]|] eqn:El.
    + apply scan_Some in El. pose proof El as (Hl & Ha & _).
      apply scan_None, jobs_for_none in Eh. simpl. split.
      * rewrite !jobs_for_app, Eh. by rewrite (jobs_for_first _ _ _ _ El).
      * intros b Hb. split; [done|]. apply (jobs_for_delete_other b _ _ j); congruence.
    + apply scan_None, jobs_for_none in Eh. apply scan_None, jobs_for_none in El.
      split; [done|]. by rewrite jobs_for_app, Eh, El.
Qed.

Lemma drain_views (a : string) (n : nat) (s : InMemoryPriorityQueue) :
  (drain a n s).1 = take n (jobs_for a (lanes s)) ∧
  jobs_for a (lanes (drain a n s).2) = drop n (jobs_for a (lanes s)) ∧
  ∀ b, b ≠ a →
    jobs_for b (high_ (drain a n s).2) = jobs_for b (high_ s) ∧
    jobs_for b (low_ (drain a n s).2) = jobs_for b (low_ s).
Proof.
  revert s. induction n as [|n IH]; intros s; [done|]. simpl.
  pose proof (dequeue_for_agent_views a s) as Hv.
  destruct (dequeue_for_agent a s) as [[j|] s'].
  - destruct Hv as [Hj Hothers]. destruct (IH s') as (IH1 & IH2 & IH3).
    destruct (drain a n s') as [js s'']. simpl in *. rewrite Hj. simpl.
    split; [by rewrite IH1|]. split; [done|].
    intros b Hb. destruct (IH3 b Hb) as [-> ->]. by apply Hothers.
  - destruct Hv as [-> Hnil]. rewrite Hnil. simpl. done.
Qed.

(** X1: [n] dequeues in a row for agent [a] hand out the first [n] jobs
    for [a], those of the high lane before those of the low lane and
    each lane in order, as many as there are if fewer than [n]; the jobs
    for [a] left behind are the remaining ones, in order, and the jobs of
    every other agent keep their lane and their order. *)
Theorem drain_in_order (a : string) (n : nat) (s : InMemoryPriorityQueue) :
  let queued := jobs_for a (high_ s) ++ jobs_for a (low_ s) in
  (drain a n s).1 = take n queued ∧
  length (drain a n s).1 = n `min` length queued ∧
  jobs_for a (high_ (drain a n s).2) ++ jobs_for a (low_ (drain a n s).2) =
    drop n queued ∧
  ∀ b, b ≠ a →
    jobs_for b (high_ (drain a n s).2) = jobs_for b (high_ s) ∧
    jobs_for b (low_ (drain a n s).2) = jobs_for b (low_ s).
Proof.
  intros queued. destruct (drain_views a n s) as (Hout & Hleft & Hothers).
  unfold lanes in Hout, Hleft. rewrite !jobs_for_app in Hleft.
  rewrite jobs_for_app in Hout. fold queued in Hout, Hleft.
  split; [exact Hout|]. split; [|split; [exact Hleft | exact Hothers]].
  rewrite Hout. apply length_take.
Qed.

Lemma drain_in_order_witness :
  "seo" ≠ "rag" ∧
  (drain "rag" 2 Sample.two_lanes).1 = [Sample.rag_high; Sample.rag_low] ∧
  jobs_for "seo" (high_ (drain "rag" 2 Sample.two_lanes).2) = [Sample.for_seo].
Proof.
  assert (Hne : "seo" ≠ "rag") by discriminate.
  split; [exact Hne|].
  destruct (drain_in_order "rag" 2 Sample.two_lanes) as (H1 & _ & _ & H3).
  split; [exact H1|]. exact (proj1 (H3 "seo" Hne)).
Defined.

Lemma run_enqueues (js : list Job) (s : InMemoryPriorityQueue) :
  run (OpEnqueue <$> js) s =
    mkQueue (high_ s ++ to_high js) (low_ s ++ to_low js) (inflight_ s).
Proof.
  revert s. induction js as [|j js IH]; intros s.
  - destruct s. simpl. unfold to_high, to_low. simpl. by rewrite !app_nil_r.
  - simpl. rewrite IH. unfold enqueue, Deque.push_back, to_high, to_low.
    destruct (String.eqb (priority j) "high") eqn:E; simpl.
    + apply String.eqb_eq in E.
      rewrite filter_cons_True, filter_cons_False by (by auto).
      by rewrite <- app_assoc.
    + apply String.eqb_neq in E.
      rewrite filter_cons_False, filter_cons_True by done.
      by rewrite <- app_assoc.
Qed.

(** X2: the dispatch policy.  After a batch of jobs is enqueued on an
    empty queue, the dequeues for agent [a] hand out first the jobs of
    the batch for [a] whose priority is exactly ["high"], in the order
    they were enqueued, and then the other jobs for [a], in the order
    they were enqueued. *)
Theorem batch_dispatch_order (a : string) (n : nat) (js : list Job) :
  (drain a n (run (OpEnqueue <$> js) empty_queue)).1 =
    take n (jobs_for a (to_high js) ++ jobs_for a (to_low js)).
Proof.
  destruct (drain_views a n (run (OpEnqueue <$> js) empty_queue)) as [-> _].
  rewrite run_enqueues. unfold lanes. simpl. by rewrite jobs_for_app.
Qed.

(** ** Inspection *)

(** X3: [peek_for_agent a] reports the job the next [dequeue_for_agent a]
    would hand out, together with the lane it sits in and its index in
    that lane; it reports nothing exactly when no job for [a] is
    queued. *)
Theorem peek_for_agent_next (a : string) (s : InMemoryPriorityQueue) :
  job <$> peek_for_agent a s = (dequeue_for_agent a s).1 ∧
  (∀ p, peek_for_agent a s = Some p →
     (lane p = "high" ∧ first_for a (high_ s) (position p) (job p)) ∨
     (lane p = "low" ∧ none_for a (high_ s) ∧
      first_for a (low_ s) (position p) (job p))) ∧
  (peek_for_agent a s = None ↔ none_for a (lanes s)).
Proof.
  split; [by rewrite peek_for_agent_head, dequeue_for_agent_head|].
  unfold peek_for_agent. rewrite none_for_lanes.
  destruct (Deque.scan a (high_ s)) as [[i j]|] eqn:Eh.
  - apply scan_Some in Eh. split.
    + intros p [= <-]. left. done.
    + split; [done|]. intros [Hn _]. exfalso. by eapply first_for_not_none.
  - apply scan_None in Eh. destruct (Deque.scan a (low_ s)) as [[i j]|] eqn:El.
    + apply scan_Some in El. split.
      * intros p [= <-]. right. done.
      * split; [done|]. intros [_ Hn]. exfalso. by eapply first_for_not_none.
    + apply scan_None in El. split; [done|]. done.
Qed.

Lemma peek_for_agent_next_witness :
  peek_for_agent "rag" Sample.two_lanes = Some (mkPeekInfo Sample.rag_high "high" 1) ∧
  first_for "rag" (high_ Sample.two_lanes) 1 Sample.rag_high.
Proof.
  assert (Hp : peek_for_agent "rag" Sample.two_lanes =
               Some (mkPeekInfo Sample.rag_high "high" 1)) by reflexivity.
  split; [exact Hp|].
  destruct (proj1 (proj2 (peek_for_agent_next "rag" Sample.two_lanes)) _ Hp)
    as [[_ Hf]|[Hl _]]; [exact Hf | discriminate Hl].
Defined.

(** ** Cancellation *)

Lemma jobs_for_remove_other (a b : string) (q : list Job) :
  b ≠ a → jobs_for b (Deque.remove_if_agent a q) = jobs_for b q.
Proof.
  intros Hne. induction q as [|j q IH]; [done|]. simpl.
  destruct (String.eqb (agent j) a) eqn:E.
  - apply agent_eqb_true in E. rewrite jobs_for_cons_other by congruence. done.
  - destruct (decide (agent j = b)) as [<-|Hb].
    + rewrite !jobs_for_cons_same. by rewrite IH.
    + rewrite !jobs_for_cons_other by done. done.
Qed.

Lemma remove_if_agent_id (a : string) (q : list Job) :
  none_for a q → Deque.remove_if_agent a q = q.
Proof.
  intros Hn. induction q as [|j q IH]; [done|]. simpl.
  assert (Hj : agent j ≠ a) by (apply Hn; by left).
  apply agent_eqb_false in Hj. rewrite Hj. f_equal. apply IH.
  intros j' Hj'. apply Hn. by right.
Qed.

(** X4: [cancel_queued_for_agent a] returns the number of queued jobs
    for [a] and leaves none of them: a peek or a dequeue for [a] right
    after finds nothing, and a second cancel returns 0 and changes
    nothing.  The inflight table is untouched, and the jobs of every
    other agent keep their lane and their order. *)
Theorem cancel_queued_for_agent_spec (a : string) (s : InMemoryPriorityQueue) :
  let r := cancel_queued_for_agent a s in
  r.1 = length (jobs_for a (lanes s)) ∧
  none_for a (lanes r.2) ∧
  peek_for_agent a r.2 = None ∧
  dequeue_for_agent a r.2 = (None, r.2) ∧
  cancel_queued_for_agent a r.2 = (0, r.2) ∧
  inflight_ r.2 = inflight_ s ∧
  ∀ b, b ≠ a →
    jobs_for b (high_ r.2) = jobs_for b (high_ s) ∧
    jobs_for b (low_ r.2) = jobs_for b (low_ s).
Proof.
  intros r. subst r.
  destruct (cancel_queued_for_agent_lanes a s) as (Hh & Hl & Hi & _ & _).
  assert (Hnh : none_for a (high_ (cancel_queued_for_agent a s).2))
    by (rewrite Hh; apply remove_if_agent_none).
  assert (Hnl : none_for a (low_ (cancel_queued_for_agent a s).2))
    by (rewrite Hl; apply remove_if_agent_none).
  split.
  { unfold cancel_queued_for_agent, lanes. simpl.
    destruct (removed_count a (high_ s)) as [H1 _].
    destruct (removed_count a (low_ s)) as [H2 _]. simpl in H1, H2.
    rewrite jobs_for_app, length_app. lia. }
  split; [by apply none_for_lanes|].
  pose proof Hnh as Sh. pose proof Hnl as Sl. apply scan_None in Sh, Sl.
  split; [unfold peek_for_agent; by rewrite Sh, Sl|].
  split; [unfold dequeue_for_agent, pop_from; by rewrite Sh, Sl|].
  split.
  { destruct (cancel_queued_for_agent a s) as [n [h l m]]. simpl in *.
    unfold cancel_queued_for_agent, remove_from. simpl.
    rewrite !remove_if_agent_id by done. f_equal. lia. }
  split; [done|].
  intros b Hb. rewrite Hh, Hl. split; by apply jobs_for_remove_other.
Qed.

Lemma cancel_queued_for_agent_spec_witness :
  "seo" ≠ "rag" ∧
  let r := cancel_queued_for_agent "rag" Sample.two_lanes in
  r.1 = 3 ∧ jobs_for "seo" (high_ r.2) = [Sample.for_seo].
Proof.
  assert (Hne : "seo" ≠ "rag") by discriminate.
  split; [exact Hne|].
  destruct (cancel_queued_for_agent_spec "rag" Sample.two_lanes)
    as (H1 & _ & _ & _ & _ & _ & H7).
  split; [exact H1 | exact (proj1 (H7 "seo" Hne))].
Defined.

(** ** Reordering controls *)

Lemma skip_next_for_agent_views (a : string) (s : InMemoryPriorityQueue) :
  let r := skip_next_for_agent a s in
  (∀ j rest, jobs_for a (high_ s) = j :: rest →
     jobs_for a (high_ r.2) = rest ++ [j] ∧ low_ r.2 = low_ s) ∧
  (∀ j rest, jobs_for a (high_ s) = [] → jobs_for a (low_ s) = j :: rest →
     high_ r.2 = high_ s ∧ jobs_for a (low_ r.2) = rest ++ [j]) ∧
  (∀ b, b ≠ a →
     jobs_for b (high_ r.2) = jobs_for b (high_ s) ∧
     jobs_for b (low_ r.2) = jobs_for b (low_ s)).
Proof.
  intros r. subst r. unfold skip_next_for_agent, Deque.erase.
  destruct (Deque.scan a (high_ s)) as [[i j]|] eqn:Eh.
  - apply scan_Some in Eh. pose proof Eh as (Hl & Ha & _).
    pose proof (jobs_for_first _ _ _ _ Eh) as Hv. simpl. split; [|split].
    + intros j' rest Hj. rewrite Hv in Hj. injection Hj as <- <-.
      by rewrite jobs_for_push_back.
    + intros j' rest Hj. by rewrite Hv in Hj.
    + intros b Hb. split; [|done]. unfold Deque.push_back.
      rewrite jobs_for_snoc_other by congruence.
      apply (jobs_for_delete_other b _ _ j); congruence.
  - apply scan_None, jobs_for_none in Eh.
    destruct (Deque.scan a (low_ s)) as [[i j]|] eqn:El.
    + apply scan_Some in El. pose proof El as (Hl & Ha & _).
      pose proof (jobs_for_first _ _ _ _ El) as Hv. simpl. split; [|split].
      * intros j' rest Hj. by rewrite Eh in Hj.
      * intros j' rest _ Hj. rewrite Hv in Hj. injection Hj as <- <-.
        by rewrite jobs_for_push_back.
      * intros b Hb. split; [done|]. unfold Deque.push_back.
        rewrite jobs_for_snoc_other by congruence.
        apply (jobs_for_delete_other b _ _ j); congruence.
    + apply scan_None, jobs_for_none in El. simpl. split; [|split].
      * intros j' rest Hj. by rewrite Eh in Hj.
      * intros j' rest _ Hj. by rewrite El in Hj.
      * done.
Qed.

(** X5: [skip_next_for_agent a] rotates the jobs for [a] within one
    lane: in the high lane when it holds a job for [a], else in the low
    lane; the first of them becomes the last and the others move up.  So
    the next dequeue for [a] hands out the second job of that lane when
    there is one, and a job for [a] alone in the high lane is still
    handed out before the low-lane jobs for [a].  The jobs of every other
    agent keep their lane and their order. *)
Theorem skip_next_for_agent_rotates (a : string) (s : InMemoryPriorityQueue) :
  let r := skip_next_for_agent a s in
  (∀ j rest, jobs_for a (high_ s) = j :: rest →
     jobs_for a (high_ r.2) = rest ++ [j] ∧ low_ r.2 = low_ s ∧
     (dequeue_for_agent a r.2).1 = head (rest ++ [j])) ∧
  (∀ j rest, jobs_for a (high_ s) = [] → jobs_for a (low_ s) = j :: rest →
     high_ r.2 = high_ s ∧ jobs_for a (low_ r.2) = rest ++ [j] ∧
     (dequeue_for_agent a r.2).1 = head (rest ++ [j])) ∧
  (∀ b n, b ≠ a → (drain b n r.2).1 = (drain b n s).1).
Proof.
  intros r. destruct (skip_next_for_agent_views a s) as (Hh & Hl & Ho).
  fold r in Hh, Hl, Ho. split; [|split].
  - intros j rest Hj. destruct (Hh j rest Hj) as [H1 H2].
    split; [done|]. split; [done|].
    rewrite dequeue_for_agent_head. unfold lanes. rewrite jobs_for_app, H1.
    by destruct rest.
  - intros j rest Hn Hj. destruct (Hl j rest Hn Hj) as [H1 H2].
    split; [done|]. split; [done|].
    rewrite dequeue_for_agent_head. unfold lanes. rewrite jobs_for_app, H1, Hn, H2.
    done.
  - intros b n Hb. destruct (Ho b Hb) as [H1 H2].
    destruct (drain_views b n r.2) as [-> _]. destruct (drain_views b n s) as [-> _].
    unfold lanes. by rewrite !jobs_for_app, H1, H2.
Qed.

Lemma skip_next_for_agent_rotates_witness :
  let s := mkQueue [Sample.rag_high; Sample.for_seo; Sample.rag_urgent] [Sample.rag_low] ∅ in
  let r := skip_next_for_agent "rag" s in
  (jobs_for "rag" (high_ s) = [Sample.rag_high; Sample.rag_urgent] ∧ "seo" ≠ "rag") ∧
  jobs_for "rag" (high_ r.2) = [Sample.rag_urgent; Sample.rag_high] ∧
  (dequeue_for_agent "rag" r.2).1 = Some Sample.rag_urgent ∧
  (drain "seo" 1 r.2).1 = (drain "seo" 1 s).1.
Proof.
  intros s r.
  assert (Hj : jobs_for "rag" (high_ s) = [Sample.rag_high; Sample.rag_urgent])
    by reflexivity.
  assert (Hne : "seo" ≠ "rag") by discriminate.
  split; [done|].
  destruct (skip_next_for_agent_rotates "rag" s) as (H1 & _ & H3).
  destruct (H1 _ _ Hj) as (Ha & _ & Hb).
  split; [exact Ha|]. split; [exact Hb|]. exact (H3 "seo" 1 Hne).
Defined.

Lemma bring_forward_for_agent_views (a b : string) (s : InMemoryPriorityQueue) :
  jobs_for b (lanes (bring_forward_for_agent a s).2) = jobs_for b (lanes s).
Proof.
  unfold bring_forward_for_agent, Deque.erase, Deque.push_front, lanes.
  destruct (Deque.scan a (high_ s)) as [[i j]|] eqn:Eh.
  - apply scan_Some in Eh. pose proof Eh as (Hl & Ha & _). cbn [fst snd high_ low_ inflight_].
    rewrite !jobs_for_app. f_equal. destruct (decide (b = a)) as [->|Hb].
    + by rewrite (jobs_for_first _ _ _ _ Eh), <- Ha, jobs_for_cons_same.
    + rewrite jobs_for_cons_other by congruence.
      apply (jobs_for_delete_other b _ _ j); congruence.
  - apply scan_None, jobs_for_none in Eh.
    destruct (Deque.scan a (low_ s)) as [[i j]|] eqn:El; [|done].
    apply scan_Some in El. pose proof El as (Hl & Ha & _). cbn [fst snd high_ low_ inflight_].
    rewrite !jobs_for_app. destruct (decide (b = a)) as [->|Hb].
    + rewrite (jobs_for_first _ _ _ _ El), <- Ha, jobs_for_cons_same.
      rewrite Ha, Eh. done.
    + rewrite jobs_for_cons_other by congruence. f_equal.
      apply (jobs_for_delete_other b _ _ j); congruence.
Qed.

(** X6: for the jobs queued when it is called, [bring_forward_for_agent
    a] changes nothing in what the workers get: for every agent, [a]
    included, dequeues made right after it hand out the same jobs in the
    same order as without it.  The inflight table is untouched, and a
    second call in a row returns the same answer and leaves the state of
    the first. *)
Theorem bring_forward_for_agent_invisible (a : string) (s : InMemoryPriorityQueue) :
  let r := bring_forward_for_agent a s in
  (∀ b n, (drain b n r.2).1 = (drain b n s).1) ∧
  inflight_ r.2 = inflight_ s ∧
  bring_forward_for_agent a r.2 = r.
Proof.
  intros r. split; [|split].
  - intros b n. destruct (drain_views b n r.2) as [-> _].
    destruct (drain_views b n s) as [-> _]. subst r.
    by rewrite bring_forward_for_agent_views.
  - apply bring_forward_for_agent_lanes.
  - subst r. destruct (Deque.scan a (high_ s)) as [[i j]|] eqn:Eh.
    + assert (Hr : bring_forward_for_agent a s =
                   (true, mkQueue (j :: delete i (high_ s)) (low_ s) (inflight_ s)))
        by (unfold bring_forward_for_agent; by rewrite Eh).
      apply scan_Some in Eh as (_ & Ha & _). apply agent_eqb_true in Ha.
      rewrite Hr. unfold bring_forward_for_agent, Deque.scan.
      cbn [snd high_ Deque.scan_from]. by rewrite Ha.
    + destruct (Deque.scan a (low_ s)) as [[i j]|] eqn:El.
      * assert (Hr : bring_forward_for_agent a s =
                     (true, mkQueue (j :: high_ s) (delete i (low_ s)) (inflight_ s)))
          by (unfold bring_forward_for_agent; by rewrite Eh, El).
        apply scan_Some in El as (_ & Ha & _). apply agent_eqb_true in Ha.
        rewrite Hr. unfold bring_forward_for_agent, Deque.scan.
        cbn [snd high_ Deque.scan_from]. by rewrite Ha.
      * assert (Hr : bring_forward_for_agent a s = (false, s))
          by (unfold bring_forward_for_agent; by rewrite Eh, El).
        rewrite Hr. exact Hr.
Qed.

(** X7: what [bring_forward_for_agent a] buys: once the head job for [a]
    has been brought forward, an [enqueue] of another job, whatever its
    priority, does not overtake it; the next dequeue for [a] still hands
    out that head job. *)
Theorem bring_forward_for_agent_protects (a : string) (s : InMemoryPriorityQueue)
    (j : Job) (rest : list Job) (j' : Job) :
  jobs_for a (lanes s) = j :: rest →
  (dequeue_for_agent a (enqueue j' (bring_forward_for_agent a s).2).2).1 = Some j.
Proof.
  intros Hj. rewrite dequeue_for_agent_head.
  assert (Hfront : ∃ h, high_ (bring_forward_for_agent a s).2 = j :: h ∧ agent j = a).
  { unfold lanes in Hj. rewrite jobs_for_app in Hj.
    unfold bring_forward_for_agent, Deque.push_front, Deque.erase.
    destruct (Deque.scan a (high_ s)) as [[i j0]|] eqn:Eh.
    - apply scan_Some in Eh. pose proof Eh as (_ & Ha & _).
      rewrite (jobs_for_first _ _ _ _ Eh) in Hj. injection Hj as -> _.
      by eexists.
    - apply scan_None, jobs_for_none in Eh. rewrite Eh in Hj. simpl in Hj.
      destruct (Deque.scan a (low_ s)) as [[i j0]|] eqn:El.
      + apply scan_Some in El. pose proof El as (_ & Ha & _).
        rewrite (jobs_for_first _ _ _ _ El) in Hj. injection Hj as -> _.
        by eexists.
      + apply scan_None, jobs_for_none in El. by rewrite El in Hj. }
  destruct Hfront as (h & Hh & Ha).
  destruct (bring_forward_for_agent a s) as [moved [h0 l0 m0]]. simpl in Hh. subst h0.
  unfold enqueue, Deque.push_back, lanes.
  destruct (String.eqb (priority j') "high"); cbn [snd high_ low_];
    rewrite <- Ha; rewrite <- ?app_comm_cons; by rewrite jobs_for_cons_same.
Qed.

Lemma bring_forward_for_agent_protects_witness :
  let s := mkQueue [Sample.for_seo] [Sample.rag_low] ∅ in
  jobs_for "rag" (lanes s) = [Sample.rag_low] ∧
  (dequeue_for_agent "rag"
     (enqueue Sample.rag_high (bring_forward_for_agent "rag" s).2).2).1 =
    Some Sample.rag_low ∧
  (dequeue_for_agent "rag" (enqueue Sample.rag_high s).2).1 = Some Sample.rag_high.
Proof.
  intros s.
  assert (Hj : jobs_for "rag" (lanes s) = [Sample.rag_low]) by reflexivity.
  split; [exact Hj|]. split; [|reflexivity].
  exact (bring_forward_for_agent_protects "rag" s Sample.rag_low [] Sample.rag_high Hj).
Defined.

(** ** Delivery *)

(** X8: a job handed out by [dequeue_for_agent] and then completed under
    its id is gone: it has left its lane, and when its id was not a key
    of the inflight table before the dequeue, the inflight table is back
    to what it was. *)
Theorem dequeue_then_complete (a : string) (s s' : InMemoryPriorityQueue) (j : Job)
    (ok : bool) (detail : string) :
  dequeue_for_agent a s = (Some j, s') →
  inflight_ s !! id j = None →
  lanes s ≡ₚ j :: lanes (complete (id j) ok detail s') ∧
  inflight_ s' !! id j = Some j ∧
  inflight_ (complete (id j) ok detail s') = inflight_ s.
Proof.
  intros Hd Hnew. pose proof (dequeue_for_agent_lanes a s) as H.
  rewrite Hd in H. destruct H as (_ & Hp & Hin).
  unfold emplace in Hin. rewrite Hnew in Hin.
  split; [done|]. rewrite Hin. split; [apply lookup_insert_eq|].
  unfold complete. cbn [inflight_]. rewrite Hin. by apply delete_insert_id.
Qed.

Lemma dequeue_then_complete_witness :
  let r := dequeue_for_agent "rag" Sample.two_lanes in
  (r = (Some Sample.rag_high, r.2) ∧
   inflight_ Sample.two_lanes !! id Sample.rag_high = None) ∧
  inflight_ (complete "r1" true "" r.2) = inflight_ Sample.two_lanes.
Proof.
  intros r.
  assert (Hd : dequeue_for_agent "rag" Sample.two_lanes = (Some Sample.rag_high, r.2))
    by reflexivity.
  assert (Hnew : inflight_ Sample.two_lanes !! id Sample.rag_high = None) by reflexivity.
  split; [done|].
  exact (proj2 (proj2 (dequeue_then_complete "rag" Sample.two_lanes r.2 Sample.rag_high
                         true "" Hd Hnew))).
Defined.



(** * Further properties of the handler *)

Section Routes.

Variable json_parse : string → option json.
Variable json_dump : json → string.
Variable what : json_exception → string.

Local Abbreviation handle := (handler json_parse json_dump what).

Lemma agent_arg_None (connection : gmap string string) :
  connection !! "agent" = None ∨ connection !! "agent" = Some "" →
  agent_arg (parse_query connection) = None.
Proof. unfold agent_arg, parse_query. by intros [-> | ->]. Qed.

(** X10: on each of the eight routes that take [?agent=], a request
    without the parameter, or with an empty one, is answered 400 with
    [{error: agent query parameter required}] and the lanes, the inflight
    table and the pause set are the ones before. *)
Theorem agent_parameter_required (minted : string) (connection : gmap string string)
    (m p text : string) (s : Server) :
  (m, p) ∈ agent_routes →
  connection !! "agent" = None ∨ connection !! "agent" = Some "" →
  handle minted connection (request m p text) s =
    (mkResponse 400 (json_dump (JObj [("error", JStr "agent query parameter required")]))
       "application/json", s).
Proof.
  intros Hr Hq. apply agent_arg_None in Hq. unfold agent_routes in Hr.
  repeat (apply elem_of_cons in Hr as [[= -> ->]|Hr]; [route; by rewrite Hq|]).
  by apply elem_of_nil in Hr.
Qed.

Lemma route_test_false (ci : ConnInfo) (m p : string) :
  (method ci, url ci) ≠ (m, p) →
  String.eqb (method ci) m && String.eqb (url ci) p = false.
Proof.
  intros Hne. apply andb_false_iff.
  destruct (String.eqb (method ci) m) eqn:Em; [|by left]. right.
  apply String.eqb_eq in Em. apply String.eqb_neq. intros Ep. apply Hne. by rewrite Em, Ep.
Qed.

(** X11: a request whose method and path are not those of a route
    (anything but the eleven exact routes and [POST /complete/...]) is
    answered 404 with [{error: not found}] and changes nothing. *)
Theorem not_found (minted : string) (connection : gmap string string)
    (ci : ConnInfo) (s : Server) :
  (method ci, url ci) ∉ exact_routes →
  ¬ (method ci = "POST" ∧ String.prefix "/complete/" (url ci) = true) →
  handle minted connection ci s =
    (mkResponse 404 (json_dump (JObj [("error", JStr "not found")])) "application/json", s).
Proof.
  intros Hnr Hnc. unfold handler, handler_try. cbv beta zeta.
  assert (Hc : String.eqb (method ci) "POST" && String.prefix "/complete/" (url ci) = false).
  { apply andb_false_iff. destruct (String.eqb (method ci) "POST") eqn:Em; [|by left].
    right. apply String.eqb_eq in Em. destruct (String.prefix "/complete/" (url ci)); [|done].
    exfalso. by apply Hnc. }
  rewrite Hc.
  rewrite !route_test_false; [done|..];
    intros Heq; apply Hnr; rewrite Heq; unfold exact_routes, agent_routes; set_solver.
Qed.

End Routes.

Lemma agent_parameter_required_witness :
  ((("GET", "/peek") ∈ agent_routes) ∧
   ((∅ : gmap string string) !! "agent" = None ∨
    (∅ : gmap string string) !! "agent" = Some "")) ∧
  Standin.handler "" ∅ (request "GET" "/peek" "") Standin.busy =
    (mkResponse 400 "{error:agent query parameter required}" "application/json",
     Standin.busy).
Proof.
  assert (Hr : ("GET", "/peek") ∈ agent_routes) by (unfold agent_routes; set_solver).
  assert (Hq : (∅ : gmap string string) !! "agent" = None ∨
               (∅ : gmap string string) !! "agent" = Some "") by (by left).
  split; [done|].
  exact (agent_parameter_required Standin.json_parse Standin.json_dump Standin.what
           "" ∅ "GET" "/peek" "" Standin.busy Hr Hq).
Defined.

Lemma not_found_witness :
  let ci := request "PUT" "/enqueue" "{}" in
  (((method ci, url ci) ∉ exact_routes) ∧
   ¬ (method ci = "POST" ∧ String.prefix "/complete/" (url ci) = true)) ∧
  Standin.handler "" ∅ ci Standin.busy =
    (mkResponse 404 "{error:not found}" "application/json", Standin.busy).
Proof.
  intros ci.
  assert (Hnr : (method ci, url ci) ∉ exact_routes).
  { unfold exact_routes, agent_routes. simpl.
    intros H. repeat (apply elem_of_cons in H as [H|H]; [discriminate H|]).
    by apply elem_of_nil in H. }
  assert (Hnc : ¬ (method ci = "POST" ∧ String.prefix "/complete/" (url ci) = true)).
  { intros [Hm _]. discriminate Hm. }
  split; [done|].
  exact (not_found Standin.json_parse Standin.json_dump Standin.what "" ∅ ci Standin.busy
           Hnr Hnc).
Defined.

(** ** Enqueue over HTTP *)

Section EnqueueRoute.

Variable json_parse : string → option json.
Variable json_dump : json → string.
Variable what : json_exception → string.

Local Abbreviation handle := (handler json_parse json_dump what).
Local Abbreviation job_of := (job_of_body json_parse json_dump).

(** The job [POST /enqueue] builds from an accepted document. *)
Lemma job_of_body_document (minted text : string) (fields : list (string * json)) :
  json_parse text = Some (JObj fields) → enqueue_document (JObj fields) →
  job_of minted text =
    inr (mkJob (string_field "id" minted fields)
               (string_field "agent" "" fields)
               (string_field "model" "" fields)
               (string_field "priority" "low" fields)
               (json_dump (default (JObj []) (Json.find "payload" fields)))).
Proof.
  intros Hp ([a Ha] & [m Hm] & Hid & Hpr).
  unfold job_of_body, parse, string_field. rewrite Hp. simpl. rewrite Ha, Hm. simpl.
  destruct (Json.find "id" fields) as [v|].
  - destruct (Hid v eq_refl) as [i ->]. simpl.
    destruct (Json.find "priority" fields) as [v|].
    + destruct (Hpr v eq_refl) as [pr ->]. simpl.
      by destruct (Json.find "payload" fields).
    + simpl. by destruct (Json.find "payload" fields).
  - simpl. destruct (Json.find "priority" fields) as [v|].
    + destruct (Hpr v eq_refl) as [pr ->]. simpl.
      by destruct (Json.find "payload" fields).
    + simpl. by destruct (Json.find "payload" fields).
Qed.

(** A document that is not accepted makes the route throw. *)
Lemma job_of_body_rejects (minted text : string) :
  (∀ doc, json_parse text = Some doc → ¬ enqueue_document doc) →
  ∃ e, job_of minted text = inl e.
Proof.
  intros Hbad. unfold job_of_body, parse.
  destruct (json_parse text) as [doc|] eqn:Hp; [|by eexists].
  specialize (Hbad doc eq_refl). simpl.
  destruct doc as [| | | | |fields]; try by eexists. simpl.
  destruct (Json.find "id" fields) as [[| | |i| |]|] eqn:Hid; simpl; try (by eexists);
    destruct (Json.find "agent" fields) as [[| | |a| |]|] eqn:Ha; simpl; try (by eexists);
    destruct (Json.find "model" fields) as [[| | |m| |]|] eqn:Hm; simpl; try (by eexists);
    destruct (Json.find "priority" fields) as [[| | |pr| |]|] eqn:Hpr; simpl;
    try (by eexists);
    exfalso; apply Hbad; simpl; rewrite Ha, Hm, Hid, Hpr;
    repeat split; eauto; intros v Hv;
    first [discriminate Hv | injection Hv as <-; eauto].
Qed.

(** X12: [POST /enqueue] stores a job exactly when its body parses to an
    object whose [agent] and [model] are strings and whose [id] and
    [priority], if present, are strings.  The job stored then has the
    submitted agent and model, the submitted id or else the minted one,
    and the printed payload or else the printed empty object; the answer
    is 200 with that id, and the inflight table and the pause set are
    untouched.  Any other body is answered 400 and changes nothing. *)
Theorem enqueue_accepts (minted : string) (connection : gmap string string)
    (text : string) (s : Server) :
  let r := handle minted connection (request "POST" "/enqueue" text) s in
  (∀ fields, json_parse text = Some (JObj fields) → enqueue_document (JObj fields) →
     let jb := mkJob (string_field "id" minted fields)
                     (string_field "agent" "" fields)
                     (string_field "model" "" fields)
                     (string_field "priority" "low" fields)
                     (json_dump (default (JObj []) (Json.find "payload" fields))) in
     r = (send_response 200 (json_dump (JObj [("id", JStr (id jb))])),
          mkServer (enqueue jb (g_queue s)).2 (g_paused_agents s)) ∧
     lanes (g_queue r.2) ≡ₚ jb :: lanes (g_queue s) ∧
     inflight_ (g_queue r.2) = inflight_ (g_queue s)) ∧
  ((∀ doc, json_parse text = Some doc → ¬ enqueue_document doc) →
     status r.1 = 400 ∧ r.2 = s).
Proof.
  intros r. subst r. split.
  - intros fields Hp Hdoc jb.
    pose proof (job_of_body_document minted text fields Hp Hdoc) as Hjb. fold jb in Hjb.
    assert (Hr : handle minted connection (request "POST" "/enqueue" text) s =
                 (send_response 200 (json_dump (JObj [("id", JStr (id jb))])),
                  mkServer (enqueue jb (g_queue s)).2 (g_paused_agents s))).
    { route. rewrite Hjb. by destruct (enqueue jb (g_queue s)). }
    rewrite Hr. split; [done|]. cbn [snd g_queue]. apply enqueue_lanes.
  - intros Hbad. destruct (job_of_body_rejects minted text Hbad) as [e He].
    route. by rewrite He.
Qed.

End EnqueueRoute.

Lemma enqueue_accepts_witness :
  let fields := [("agent", JStr "rag"); ("model", JStr "m"); ("priority", JStr "urgent")] in
  let r := Standin.handler "00ff" ∅ (request "POST" "/enqueue" "urgent job") Standin.idle in
  let bad := Standin.handler "00ff" ∅ (request "POST" "/enqueue" "{}") Standin.idle in
  (Standin.json_parse "urgent job" = Some (JObj fields) ∧ enqueue_document (JObj fields) ∧
   (∀ doc, Standin.json_parse "{}" = Some doc → ¬ enqueue_document doc)) ∧
  r.1 = mkResponse 200 "{id:00ff}" "application/json" ∧
  status bad.1 = 400 ∧ bad.2 = Standin.idle.
Proof.
  intros fields r bad.
  assert (Hp : Standin.json_parse "urgent job" = Some (JObj fields)) by reflexivity.
  assert (Hdoc : enqueue_document (JObj fields)).
  { simpl. repeat split; eauto; intros v [= <-] || intros v Hv; eauto; discriminate. }
  assert (Hbad : ∀ doc, Standin.json_parse "{}" = Some doc → ¬ enqueue_document doc).
  { intros doc [= <-] ([a Ha] & _). discriminate Ha. }
  split; [done|].
  destruct (enqueue_accepts Standin.json_parse Standin.json_dump Standin.what
              "00ff" ∅ "urgent job" Standin.idle) as [Hok _].
  destruct (enqueue_accepts Standin.json_parse Standin.json_dump Standin.what
              "00ff" ∅ "{}" Standin.idle) as [_ Hno].
  destruct (Hok fields Hp Hdoc) as (Hr & _ & _).
  split; [exact (f_equal fst Hr)|]. exact (Hno Hbad).
Defined.

(** ** Round trip over HTTP *)

Section RoundTrip.

Variable json_parse : string → option json.
Variable json_dump : json → string.
Variable what : json_exception → string.

Local Abbreviation handle := (handler json_parse json_dump what).

Lemma dequeue_after_enqueue (jb : Job) (q : InMemoryPriorityQueue) :
  none_for (agent jb) (lanes q) →
  ∃ q', dequeue_for_agent (agent jb) (enqueue jb q).2 = (Some jb, q').
Proof.
  intros Hn. pose proof (dequeue_for_agent_head (agent jb) (enqueue jb q).2) as Hh.
  apply none_for_lanes in Hn as [Hnh Hnl]. apply jobs_for_none in Hnh, Hnl.
  assert (Hv : jobs_for (agent jb) (lanes (enqueue jb q).2) = [jb]).
  { unfold enqueue, Deque.push_back, lanes.
    destruct (String.eqb (priority jb) "high"); cbn [snd high_ low_];
      rewrite !jobs_for_app, Hnh, Hnl, jobs_for_cons_same; done. }
  rewrite Hv in Hh. destruct (dequeue_for_agent (agent jb) (enqueue jb q).2) as [o q'].
  simpl in Hh. subst o. by exists q'.
Qed.

(** X13: enqueue then dequeue over HTTP.  When an accepted document for
    agent [a] is enqueued while no job for [a] is queued and [a] is not
    paused, the next [GET /dequeue?agent=a] is answered 200 with the
    submitted id (or the minted one), agent, model and priority string
    (or ["low"]) and with the submitted payload (or the empty object),
    provided the library parses the printed payload back to it. *)
Theorem enqueue_dequeue_round_trip (minted minted' : string)
    (connection connection' : gmap string string) (text text' : string)
    (fields : list (string * json)) (a : string) (s : Server) :
  json_parse text = Some (JObj fields) → enqueue_document (JObj fields) →
  Json.find "agent" fields = Some (JStr a) → a ≠ "" →
  connection' !! "agent" = Some a → a ∉ g_paused_agents s →
  none_for a (lanes (g_queue s)) →
  let doc := default (JObj []) (Json.find "payload" fields) in
  json_parse (json_dump doc) = Some doc →
  let s1 := (handle minted connection (request "POST" "/enqueue" text) s).2 in
  (handle minted' connection' (request "GET" "/dequeue" text') s1).1 =
    send_response 200
      (json_dump (JObj [("id", JStr (string_field "id" minted fields));
                        ("agent", JStr a);
                        ("model", JStr (string_field "model" "" fields));
                        ("priority", JStr (string_field "priority" "low" fields));
                        ("payload", doc)])).
Proof.
  intros Hp Hdoc Ha Hne Hq Hnp Hnone doc Hrt s1.
  set (jb := mkJob (string_field "id" minted fields) (string_field "agent" "" fields)
               (string_field "model" "" fields) (string_field "priority" "low" fields)
               (json_dump doc)).
  assert (Hjb : job_of_body json_parse json_dump minted text = inr jb)
    by (by apply job_of_body_document).
  assert (Hag : agent jb = a) by (unfold jb, string_field; simpl; by rewrite Ha).
  assert (Hs1 : s1 = mkServer (enqueue jb (g_queue s)).2 (g_paused_agents s)).
  { subst s1. route. rewrite Hjb. destruct (enqueue jb (g_queue s)). reflexivity. }
  rewrite <- Hag in Hnone. destruct (dequeue_after_enqueue jb (g_queue s) Hnone) as [q' Hd].
  rewrite Hag in Hd. rewrite Hs1. route. rewrite (agent_arg_Some _ _ Hne Hq).
  cbn [g_queue g_paused_agents]. rewrite bool_decide_eq_false_2 by done.
  rewrite Hd. unfold job_json, parse. cbn [payload jb]. rewrite Hrt.
  cbn [bind ret fst]. by rewrite <- Hag.
Qed.

(** X14: the routes [GET /stats], [GET /peek] and [GET /control/state]
    are read-only: whatever the query, the body and the outcome, the
    lanes, the inflight table and the pause set are the ones before. *)
Theorem read_only_routes (minted : string) (connection : gmap string string)
    (text : string) (s : Server) :
  (handle minted connection (request "GET" "/stats" text) s).2 = s ∧
  (handle minted connection (request "GET" "/peek" text) s).2 = s ∧
  (handle minted connection (request "GET" "/control/state" text) s).2 = s.
Proof.
  rewrite !handler_state. split; [|split].
  - by route.
  - route. destruct (agent_arg (parse_query connection)); [|done].
    by destruct (peek_for_agent _ _).
  - by route.
Qed.

End RoundTrip.

Lemma enqueue_dequeue_round_trip_witness :
  let fields := [("agent", JStr "rag"); ("model", JStr "m"); ("priority", JStr "urgent")] in
  let rag : gmap string string := {["agent" := "rag"]} in
  let s1 := (Standin.handler "00ff" ∅ (request "POST" "/enqueue" "urgent job") Standin.idle).2 in
  (Standin.json_parse "urgent job" = Some (JObj fields) ∧ enqueue_document (JObj fields) ∧
   "rag" ≠ "" ∧ ("rag" ∉ g_paused_agents Standin.idle) ∧
   none_for "rag" (lanes (g_queue Standin.idle)) ∧
   Standin.json_parse (Standin.json_dump (JObj [])) = Some (JObj [])) ∧
  (Standin.handler "" rag (request "GET" "/dequeue" "") s1).1 =
    mkResponse 200 "{id:00ff,agent:rag,model:m,priority:urgent,payload:{}}"
      "application/json".
Proof.
  intros fields rag s1.
  assert (Hp : Standin.json_parse "urgent job" = Some (JObj fields)) by reflexivity.
  assert (Hdoc : enqueue_document (JObj fields)).
  { simpl. repeat split; eauto; intros v Hv;
      first [discriminate Hv | injection Hv as <-; eauto]. }
  assert (Hne : "rag" ≠ "") by discriminate.
  assert (Hnp : "rag" ∉ g_paused_agents Standin.idle) by (by apply not_elem_of_empty).
  assert (Hnone : none_for "rag" (lanes (g_queue Standin.idle))).
  { intros j Hj. by apply elem_of_nil in Hj. }
  assert (Hrt : Standin.json_parse (Standin.json_dump (JObj [])) = Some (JObj []))
    by reflexivity.
  split; [done|].
  exact (enqueue_dequeue_round_trip Standin.json_parse Standin.json_dump Standin.what
           "00ff" "" ∅ rag "urgent job" "" fields "rag" Standin.idle
           Hp Hdoc eq_refl Hne eq_refl Hnp Hnone Hrt).
Defined.

(** ** Pause and resume *)

Section PauseResume.

#[local] Set Warnings "-clear-no-such-hyp".

Variable json_parse : string → option json.
Variable json_dump : json → string.
Variable what : json_exception → string.

Local Abbreviation handle := (handler json_parse json_dump what).

Lemma handler_pause (minted : string) (connection : gmap string string)
    (text a : string) (s : Server) :
  a ≠ "" → connection !! "agent" = Some a →
  handle minted connection (request "POST" "/control/pause" text) s =
    (send_response 200 (json_dump (JObj [("ok", JBool true)])),
     mkServer (g_queue s) ({[a]} ∪ g_paused_agents s)).
Proof. intros Ha Hq. route. by rewrite (agent_arg_Some _ _ Ha Hq). Qed.

Lemma handler_resume (minted : string) (connection : gmap string string)
    (text a : string) (s : Server) :
  a ≠ "" → connection !! "agent" = Some a →
  handle minted connection (request "POST" "/control/resume" text) s =
    (send_response 200 (json_dump (JObj [("ok", JBool true)])),
     mkServer (g_queue s) (g_paused_agents s ∖ {[a]})).
Proof. intros Ha Hq. route. by rewrite (agent_arg_Some _ _ Ha Hq). Qed.

(** X15: [/control/pause?agent=a] and [/control/resume?agent=a] only
    touch [a]'s membership of the pause set: the queue and the other
    agents' membership are the ones before.  Each is idempotent, a
    resume undoes a pause of an agent that was not paused, and after a
    resume [GET /dequeue?agent=a] reaches the queue again: the state it
    leaves is the one [dequeue_for_agent a] leaves. *)
Theorem pause_resume (minted : string) (connection : gmap string string)
    (text a : string) (s : Server) :
  a ≠ "" → connection !! "agent" = Some a →
  let pause s := (handle minted connection (request "POST" "/control/pause" text) s).2 in
  let resume s := (handle minted connection (request "POST" "/control/resume" text) s).2 in
  g_queue (pause s) = g_queue s ∧ g_queue (resume s) = g_queue s ∧
  a ∈ g_paused_agents (pause s) ∧ (a ∉ g_paused_agents (resume s)) ∧
  (∀ b, b ≠ a →
     (b ∈ g_paused_agents (pause s) ↔ b ∈ g_paused_agents s) ∧
     (b ∈ g_paused_agents (resume s) ↔ b ∈ g_paused_agents s)) ∧
  pause (pause s) = pause s ∧ resume (resume s) = resume s ∧
  (a ∉ g_paused_agents s → resume (pause s) = s) ∧
  (handle minted connection (request "GET" "/dequeue" text) (resume s)).2 =
    mkServer (dequeue_for_agent a (g_queue s)).2 (g_paused_agents (resume s)).
Proof.
  intros Ha Hq pause resume.
  assert (Hp : ∀ s0, pause s0 = mkServer (g_queue s0) ({[a]} ∪ g_paused_agents s0)).
  { intros s0. unfold pause. by rewrite (handler_pause _ _ _ a). }
  assert (Hr : ∀ s0, resume s0 = mkServer (g_queue s0) (g_paused_agents s0 ∖ {[a]})).
  { intros s0. unfold resume. by rewrite (handler_resume _ _ _ a). }
  rewrite !Hp, !Hr. cbn [g_queue g_paused_agents].
  split; [done|]. split; [done|]. split; [set_solver|]. split; [set_solver|].
  split; [intros b Hb; set_solver|].
  split; [f_equal; set_solver|]. split; [f_equal; set_solver|].
  split.
  - intros Hnp. destruct s as [q P]. cbn [g_queue g_paused_agents] in *.
    f_equal. set_solver.
  - rewrite handler_state. route. rewrite (agent_arg_Some _ _ Ha Hq).
    cbn [g_queue g_paused_agents].
    rewrite bool_decide_eq_false_2 by set_solver.
    by destruct (dequeue_for_agent a (g_queue s)) as [[j|] q'].
Qed.

End PauseResume.

Lemma pause_resume_witness :
  let rag : gmap string string := {["agent" := "rag"]} in
  let pause s := (Standin.handler "" rag (request "POST" "/control/pause" "") s).2 in
  let resume s := (Standin.handler "" rag (request "POST" "/control/resume" "") s).2 in
  ("rag" ≠ "" ∧ rag !! "agent" = Some "rag" ∧ ("rag" ∉ g_paused_agents Standin.busy)) ∧
  resume (pause Standin.busy) = Standin.busy.
Proof.
  intros rag pause resume.
  assert (Ha : "rag" ≠ "") by discriminate.
  assert (Hq : rag !! "agent" = Some "rag") by reflexivity.
  assert (Hnp : "rag" ∉ g_paused_agents Standin.busy) by (by apply not_elem_of_empty).
  split; [done|].
  destruct (pause_resume Standin.json_parse Standin.json_dump Standin.what
              "" rag "" "rag" Standin.busy Ha Hq)
    as (_ & _ & _ & _ & _ & _ & _ & H & _).
  exact (H Hnp).
Defined.

(** ** The metrics of [/stats] *)

Section Stats.

Variable json_parse : string → option json.
Variable json_dump : json → string.
Variable what : json_exception → string.

Local Abbreviation handle := (handler json_parse json_dump what).
Local Abbreviation job_doc := (job_json json_parse).
Local Abbreviation pushing := (push_jobs json_parse).





End Stats.


(** ** Minted ids *)

Lemma hex_value_digit (d : N) :
  (d < 16)%N → Printf.hex_value (Printf.hex_digit d) = d.
Proof.
  intros Hd. unfold Printf.hex_value, Printf.hex_digit.
  destruct (d <? 10)%N eqn:E.
  - apply N.ltb_lt in E. rewrite N_ascii_embedding by lia.
    replace (48 + d <? 58)%N with true by (symmetry; apply N.ltb_lt; lia). lia.
  - apply N.ltb_ge in E. rewrite N_ascii_embedding by lia.
    replace (87 + d <? 58)%N with false by (symmetry; apply N.ltb_ge; lia). lia.
Qed.

Lemma hex_digit_lower (d : N) :
  (d < 16)%N → Printf.hex_digit d ∈ list_ascii_of_string "0123456789abcdef".
Proof.
  intros Hd.
  assert (H : d ∈ (N.of_nat <$> seq 0 16)).
  { apply list_elem_of_fmap. exists (N.to_nat d). split; [lia|].
    apply elem_of_seq. lia. }
  simpl in H.
  repeat (apply elem_of_cons in H as [->|H]; [vm_compute; by repeat constructor|]).
  by apply elem_of_nil in H.
Qed.

Lemma hex_rev_length (fuel : nat) (n : N) :
  (length (Printf.hex_rev fuel n) ≤ fuel)%nat.
Proof.
  revert n. induction fuel as [|f IH]; intros n; simpl; [done|].
  destruct (n =? 0)%N; simpl; [lia|]. specialize (IH (n / 16)%N). lia.
Qed.

Lemma hex_rev_lower (fuel : nat) (n : N) :
  Forall (λ c, c ∈ list_ascii_of_string "0123456789abcdef") (Printf.hex_rev fuel n).
Proof.
  revert n. induction fuel as [|f IH]; intros n; simpl; [done|].
  destruct (n =? 0)%N; [done|]. constructor; [|apply IH].
  apply hex_digit_lower. apply N.mod_lt. lia.
Qed.

Lemma unhex_snoc (s : list ascii) (c : ascii) :
  Printf.unhex (s ++ [c]) = (Printf.unhex s * 16 + Printf.hex_value c)%N.
Proof. unfold Printf.unhex. by rewrite fold_left_app. Qed.

Lemma unhex_zeros (k : nat) (s : list ascii) :
  Printf.unhex (replicate k "0"%char ++ s) = Printf.unhex s.
Proof.
  unfold Printf.unhex. rewrite fold_left_app. f_equal.
  induction k as [|k IH]; [done|]. simpl. exact IH.
Qed.

(** With enough fuel for its size, the digits of [n] stand for [n]. *)
Lemma unhex_hex_rev (fuel : nat) (n : N) :
  (n < 16 ^ N.of_nat fuel)%N → Printf.unhex (rev (Printf.hex_rev fuel n)) = n.
Proof.
  revert n. induction fuel as [|f IH]; intros n Hn.
  - simpl in *. unfold Printf.unhex. simpl. lia.
  - simpl. destruct (n =? 0)%N eqn:E.
    + apply N.eqb_eq in E. subst. done.
    + simpl. rewrite unhex_snoc. rewrite IH.
      * rewrite hex_value_digit by (apply N.mod_lt; lia).
        pose proof (N.div_mod n 16). lia.
      * rewrite Nat2N.inj_succ, N.pow_succ_r' in Hn.
        apply N.Div0.div_lt_upper_bound. lia.
Qed.

Lemma llx_016_facts (n : N) :
  (n < 2 ^ 64)%N →
  length (Printf.llx_016 n) = 16 ∧
  Forall (λ c, c ∈ list_ascii_of_string "0123456789abcdef") (Printf.llx_016 n) ∧
  Printf.unhex (Printf.llx_016 n) = n.
Proof.
  intros Hn. unfold Printf.llx_016, Printf.llx.
  destruct (n =? 0)%N eqn:E.
  - apply N.eqb_eq in E. subst. vm_compute. split; [done|]. split; [|done].
    by repeat constructor.
  - pose proof (hex_rev_length 16 n) as Hl.
    rewrite length_app, length_replicate, length_rev. split; [lia|]. split.
    + apply Forall_app. split.
      * apply Forall_replicate. vm_compute. by repeat constructor.
      * apply Forall_rev. apply hex_rev_lower.
    + rewrite unhex_zeros. apply unhex_hex_rev.
      change (16 ^ N.of_nat 16)%N with (2 ^ 64)%N. exact Hn.
Qed.

Lemma string_of_list_length (l : list ascii) :
  String.length (string_of_list_ascii l) = length l.
Proof. induction l as [|c l IH]; [done|]. simpl. by rewrite IH. Qed.

(** X17: an id minted by [gen_id] is 32 characters long, all of them
    hexadecimal digits in lower case; the buffer of 33 bytes cuts
    nothing; the first 16 characters spell the first 64-bit draw and the
    last 16 the second, so two ids are equal only if both draws are. *)
Theorem gen_id_format (a b : N) :
  let a64 := (a mod 2 ^ 64)%N in
  let b64 := (b mod 2 ^ 64)%N in
  String.length (gen_id a b) = 32 ∧
  Forall (λ c, c ∈ list_ascii_of_string "0123456789abcdef")
    (list_ascii_of_string (gen_id a b)) ∧
  list_ascii_of_string (gen_id a b) = Printf.llx_016 a64 ++ Printf.llx_016 b64 ∧
  Printf.unhex (take 16 (list_ascii_of_string (gen_id a b))) = a64 ∧
  Printf.unhex (drop 16 (list_ascii_of_string (gen_id a b))) = b64 ∧
  ∀ a' b', gen_id a b = gen_id a' b' →
           a64 = (a' mod 2 ^ 64)%N ∧ b64 = (b' mod 2 ^ 64)%N.
Proof.
  intros a64 b64.
  assert (Hfull : ∀ x y, list_ascii_of_string (gen_id x y) =
            Printf.llx_016 (x mod 2 ^ 64)%N ++ Printf.llx_016 (y mod 2 ^ 64)%N).
  { intros x y. unfold gen_id. rewrite list_ascii_of_string_of_list_ascii.
    destruct (llx_016_facts (x mod 2 ^ 64)%N) as (Lx & _); [apply N.mod_lt; lia|].
    destruct (llx_016_facts (y mod 2 ^ 64)%N) as (Ly & _); [apply N.mod_lt; lia|].
    apply take_ge. rewrite length_app. simpl. lia. }
  assert (Hdec : ∀ x y,
            Printf.unhex (take 16 (list_ascii_of_string (gen_id x y))) = (x mod 2 ^ 64)%N ∧
            Printf.unhex (drop 16 (list_ascii_of_string (gen_id x y))) = (y mod 2 ^ 64)%N).
  { intros x y. rewrite Hfull.
    destruct (llx_016_facts (x mod 2 ^ 64)%N) as (Lx & _ & Ux); [apply N.mod_lt; lia|].
    destruct (llx_016_facts (y mod 2 ^ 64)%N) as (Ly & _ & Uy); [apply N.mod_lt; lia|].
    rewrite take_app_length' by done. rewrite drop_app_length' by done. done. }
  destruct (llx_016_facts a64) as (La & Fa & _); [apply N.mod_lt; lia|].
  destruct (llx_016_facts b64) as (Lb & Fb & _); [apply N.mod_lt; lia|].
  split.
  { rewrite <- (string_of_list_ascii_of_string (gen_id a b)), string_of_list_length.
    rewrite Hfull, length_app. fold a64 b64. lia. }
  split; [rewrite Hfull; by apply Forall_app|].
  split; [apply Hfull|]. destruct (Hdec a b) as [Ha Hb].
  split; [done|]. split; [done|].
  intros a' b' Heq. destruct (Hdec a' b') as [Ha' Hb'].
  rewrite <- Heq in Ha', Hb'. subst a64 b64. split; congruence.
Qed.

Lemma gen_id_format_witness :
  gen_id 255 1 = "00000000000000ff0000000000000001" ∧
  gen_id 255 1 = gen_id (255 + 2 ^ 64) 1 ∧
  (255 mod 2 ^ 64 = (255 + 2 ^ 64) mod 2 ^ 64)%N.
Proof.
  assert (Heq : gen_id 255 1 = gen_id (255 + 2 ^ 64) 1) by (vm_compute; reflexivity).
  split; [vm_compute; reflexivity|]. split; [exact Heq|].
  destruct (gen_id_format 255 1) as (_ & _ & _ & _ & _ & Hinj).
  exact (proj1 (Hinj _ _ Heq)).
Defined.

(** * The client of the agents against the handler *)

Section Client.

Variable json_parse : string → option json.
Variable json_dump : json → string.
Variable what : json_exception → string.

Local Abbreviation handle := (handler json_parse json_dump what).


(** X19: what the client's [dequeue] makes of an answer.  A failed
    transfer, a 204 and every code outside 200..299 all come out as no
    task, so a worker cannot tell a paused agent or a refused request
    from an empty queue.  The 200 answer the handler gives for a job
    comes out as the task with the id, agent, model and priority of the
    job, and with its payload when that payload is a printed document
    (the library parsing what it printed). *)
Theorem client_dequeue_decodes :
  Sdk.dequeue json_parse json_dump None = inr None ∧
  (∀ status buf, Sdk.success status = false ∨ status = 204%Z →
     Sdk.dequeue json_parse json_dump (Some (status, buf)) = inr None) ∧
  (∀ (j : Job) (p out : json),
     payload j = json_dump p → json_parse (json_dump p) = Some p →
     job_json json_parse j = inr out →
     json_parse (json_dump out) = Some out →
     Sdk.dequeue json_parse json_dump (Some (200%Z, json_dump out)) =
       inr (Some (task_of_job j))).
Proof.
  split; [done|]. split.
  - intros status buf [Hs| ->]; [|done]. unfold Sdk.dequeue, Sdk.success in *.
    destruct (status =? 204)%Z; [done|].
    apply andb_false_iff in Hs as [Hs|Hs].
    + apply Z.leb_gt in Hs. replace (status <? 200)%Z with true; [done|].
      symmetry. by apply Z.ltb_lt.
    + apply Z.ltb_ge in Hs. replace (300 <=? status)%Z with true; [by rewrite orb_true_r|].
      symmetry. by apply Z.leb_le.
  - intros j p out Hpl Hp Hout Hrt. unfold job_json, parse in Hout.
    rewrite Hpl, Hp in Hout. simpl in Hout. injection Hout as <-.
    unfold Sdk.dequeue, parse. cbn [Z.eqb Z.ltb Z.leb Z.compare Pos.compare Pos.compare_cont orb].
    rewrite Hrt. simpl. unfold task_of_job. by rewrite Hpl.
Qed.

(** X20: what the client's [enqueue] posts for a task and what the
    handler does with it (the library parsing what it printed).  The id
    of the task is not sent: the job is stored under the minted id, which
    the client reports back; it has the agent and the model of the task,
    the priority of the task or ["low"] for an empty one, and the task's
    payload document or the empty object for an empty payload. *)
Theorem client_enqueue_stored (t : Sdk.Task) (pl : json) (minted : string)
    (connection : gmap string string) (s : Server) :
  (Sdk.payload_json t = "" ∧ pl = JObj []) ∨
  (Sdk.payload_json t ≠ "" ∧ json_parse (Sdk.payload_json t) = Some pl) →
  let pr := if String.eqb (Sdk.priority t) "" then "low" else Sdk.priority t in
  let doc := JObj [("agent", JStr (Sdk.agent t)); ("model", JStr (Sdk.model t));
                   ("priority", JStr pr); ("payload", pl)] in
  let answer := JObj [("id", JStr minted)] in
  json_parse (json_dump doc) = Some doc →
  json_parse (json_dump answer) = Some answer →
  let jb := mkJob minted (Sdk.agent t) (Sdk.model t) pr (json_dump pl) in
  Sdk.enqueue_body json_parse json_dump t = inr (json_dump doc) ∧
  let r := handle minted connection (request "POST" "/enqueue" (json_dump doc)) s in
  r.2 = mkServer (enqueue jb (g_queue s)).2 (g_paused_agents s) ∧
  Sdk.enqueue json_parse (Some (Z.of_nat (status r.1), content r.1)) = (true, Some minted).
Proof.
  intros Hpl pr doc answer Hrt Hans jb. split.
  - unfold Sdk.enqueue_body, parse. destruct Hpl as [[He ->]|[Hne Hp]].
    + rewrite He. done.
    + apply String.eqb_neq in Hne. rewrite Hne, Hp. done.
  - intros r.
    assert (Hjb : job_of_body json_parse json_dump minted (json_dump doc) = inr jb).
    { unfold job_of_body, parse. rewrite Hrt. done. }
    assert (Hr : r = (send_response 200 (json_dump answer),
                      mkServer (enqueue jb (g_queue s)).2 (g_paused_agents s))).
    { subst r. route. rewrite Hjb. destruct (enqueue jb (g_queue s)). reflexivity. }
    rewrite Hr. split; [done|]. simpl. unfold Sdk.enqueued_id. by rewrite Hans.
Qed.

End Client.


Lemma client_dequeue_decodes_witness :
  (payload Sample.rag_high = Standin.json_dump (JObj []) ∧
   Echo.json_parse (Standin.json_dump (JObj [])) = Some (JObj []) ∧
   job_json Echo.json_parse Sample.rag_high = inr Echo.dequeued ∧
   Echo.json_parse (Standin.json_dump Echo.dequeued) = Some Echo.dequeued) ∧
  Sdk.dequeue Echo.json_parse Standin.json_dump
    (Some (200%Z, Standin.json_dump Echo.dequeued)) =
    inr (Some (Sdk.mkTask "r1" "rag" "m" "high" "{}")).
Proof.
  split; [repeat split; reflexivity|].
  exact (proj2 (proj2 (client_dequeue_decodes Echo.json_parse Standin.json_dump))
           Sample.rag_high (JObj []) Echo.dequeued eq_refl eq_refl eq_refl eq_refl).
Defined.

Lemma client_enqueue_stored_witness :
  let t := Sdk.mkTask "ignored" "rag" "m" "" "" in
  let r := Echo.handler "00ff" ∅ (request "POST" "/enqueue" (Standin.json_dump Echo.posted))
             Standin.idle in
  (Sdk.payload_json t = "" ∧
   Echo.json_parse (Standin.json_dump Echo.posted) = Some Echo.posted ∧
   Echo.json_parse (Standin.json_dump Echo.minted) = Some Echo.minted) ∧
  Sdk.enqueue_body Echo.json_parse Standin.json_dump t = inr (Standin.json_dump Echo.posted) ∧
  low_ (g_queue r.2) = [mkJob "00ff" "rag" "m" "low" "{}"] ∧
  Sdk.enqueue Echo.json_parse (Some (Z.of_nat (status r.1), content r.1)) =
    (true, Some "00ff").
Proof.
  intros t r. split; [repeat split; reflexivity|].
  destruct (client_enqueue_stored Echo.json_parse Standin.json_dump Standin.what
              t (JObj []) "00ff" ∅ Standin.idle (or_introl (conj eq_refl eq_refl))
              eq_refl eq_refl) as (H1 & H2 & H3).
  split; [exact H1|]. split; [|exact H3].
  subst r. unfold Echo.handler. change (Standin.json_dump Echo.posted) with
    (Standin.json_dump (JObj [("agent", JStr (Sdk.agent t)); ("model", JStr (Sdk.model t));
       ("priority", JStr (if String.eqb (Sdk.priority t) "" then "low" else Sdk.priority t));
       ("payload", JObj [])])).
  rewrite H2. reflexivity.
Defined.

(** ** The base address of the client *)

Lemma back_snoc (b : string) (c : ascii) :
  Sdk.back (b ++ String c EmptyString)%string = Some c.
Proof.
  induction b as [|c0 b IH]; [done|].
  change (String c0 b ++ String c EmptyString)%string
    with (String c0 (b ++ String c EmptyString)%string).
  simpl. rewrite IH. by destruct (b ++ String c EmptyString)%string eqn:E; [destruct b|].
Qed.

Lemma pop_back_snoc (b : string) (c : ascii) :
  Sdk.pop_back (b ++ String c EmptyString)%string = b.
Proof.
  induction b as [|c0 b IH]; [done|].
  change (String c0 b ++ String c EmptyString)%string
    with (String c0 (b ++ String c EmptyString)%string).
  simpl. rewrite IH. by destruct (b ++ String c EmptyString)%string eqn:E; [destruct b|].
Qed.

(** X21: the client drops one trailing slash of its base address and
    nothing else, so a base given with or without a final slash yields
    the same request addresses, with a single slash before the route. *)
Theorem client_base_address (b key : string) :
  Sdk.AgentQueueClient (b ++ "/") = b ∧
  Sdk.complete_url (Sdk.AgentQueueClient (b ++ "/")) key = (b ++ "/complete/" ++ key)%string ∧
  (Sdk.back b ≠ Some "/"%char →
     Sdk.AgentQueueClient b = b ∧
     Sdk.AgentQueueClient (b ++ "/") = Sdk.AgentQueueClient b).
Proof.
  assert (H : Sdk.AgentQueueClient (b ++ "/") = b).
  { unfold Sdk.AgentQueueClient. rewrite back_snoc. simpl. apply pop_back_snoc. }
  split; [exact H|]. split; [unfold Sdk.complete_url; by rewrite H|].
  intros Hb.
  assert (H' : Sdk.AgentQueueClient b = b).
  { unfold Sdk.AgentQueueClient. destruct (Sdk.back b) as [c|]; [|done].
    destruct (Ascii.eqb c "/") eqn:E; [|done]. apply Ascii.eqb_eq in E. by subst. }
  split; [exact H'|]. by rewrite H, H'.
Qed.

Lemma client_base_address_witness :
  Sdk.back "http://localhost:7000" ≠ Some "/"%char ∧
  Sdk.AgentQueueClient "http://localhost:7000/" = Sdk.AgentQueueClient "http://localhost:7000".
Proof.
  assert (Hb : Sdk.back "http://localhost:7000" ≠ Some "/"%char) by (vm_compute; discriminate).
  split; [exact Hb|].
  exact (proj2 (proj2 (proj2 (client_base_address "http://localhost:7000" "")) Hb)).
Defined.

(** ** The code chunker of the RAG agent *)

Section Chunker.
Import Rag.

Lemma checked_Some (z : Z) : (int_min ≤ z ≤ int_max)%Z → checked z = Some z.
Proof.
  intros [H1 H2]. unfold checked.
  apply Z.leb_le in H1, H2. by rewrite H1, H2.
Qed.

Lemma to_int_small (z : Z) : (0 ≤ z ≤ int_max)%Z → to_int z = z.
Proof.
  unfold to_int, int_max. intros H. rewrite Z.mod_small; lia.
Qed.

Lemma render_nonempty (g : list string) : g ≠ [] → String.eqb (render g) "" = false.
Proof.
  destruct g as [|line g]; [done|]. intros _. by destruct line.
Qed.

Lemma string_app_assoc (a b c : string) : (a +:+ b) +:+ c = a +:+ (b +:+ c).
Proof.
  induction a as [|x a IH]; [done|].
  change (String x ((a +:+ b) +:+ c) = String x (a +:+ (b +:+ c))). by rewrite IH.
Qed.

Lemma render_app (g1 g2 : list string) : render (g1 ++ g2) = render g1 +:+ render g2.
Proof.
  induction g1 as [|line g1 IH]; [done|].
  cbn [app render foldr]. fold (render (g1 ++ g2)). fold (render g1).
  rewrite IH. by rewrite string_app_assoc.
Qed.

Lemma window_slice (lines : list string) (i m : Z) :
  (0 ≤ i)%Z → (0 ≤ m)%Z →
  slice i (Z.min (Z.of_nat (length lines)) (i + m)) lines =
  take (Z.to_nat m) (drop (Z.to_nat i) lines).
Proof.
  intros Hi Hm. unfold slice.
  destruct (Z.le_gt_cases (i + m) (Z.of_nat (length lines))) as [H|H].
  - rewrite Z.min_r by done. f_equal. lia.
  - rewrite Z.min_l by lia. rewrite !take_ge; [done| |]; rewrite length_drop; lia.
Qed.

Lemma window_length (lines : list string) (i m : nat) :
  length (take m (drop i lines)) = (m `min` (length lines - i))%nat.
Proof. by rewrite length_take, length_drop. Qed.

(** One round of the loop, for sizes within the range of [int]. *)
Lemma chunk_loop_round (fuel : nat) (lines : list string) (max_lines step i : Z) :
  let n := Z.of_nat (length lines) in
  (n ≤ int_max)%Z → (1 ≤ max_lines)%Z → (0 ≤ i < n)%Z → (i + max_lines ≤ int_max)%Z →
  (0 ≤ step ≤ max_lines)%Z →
  chunk_loop (S fuel) lines max_lines step i =
    if decide (n ≤ i + max_lines)%Z
    then Some [render (take (Z.to_nat max_lines) (drop (Z.to_nat i) lines))]
    else (λ rest, render (take (Z.to_nat max_lines) (drop (Z.to_nat i) lines)) :: rest)
           <$> chunk_loop fuel lines max_lines step (i + step).
Proof.
  intros n Hn Hm Hi Hw Hs. subst n. cbn [chunk_loop].
  set (n := Z.of_nat (length lines)) in *.
  rewrite (to_int_small n) by lia.
  replace (i <? n)%Z with true by (symmetry; apply Z.ltb_lt; lia).
  rewrite (checked_Some (i + max_lines)) by (unfold int_min; lia).
  cbv zeta. subst n. rewrite window_slice by lia.
  set (n := Z.of_nat (length lines)) in *.
  rewrite render_nonempty.
  2:{ intros E. apply (f_equal length) in E. rewrite window_length in E.
      simpl in E. lia. }
  case_decide as Hd.
  - replace (Z.min n (i + max_lines) =? n)%Z with true; [done|].
    symmetry. apply Z.eqb_eq. lia.
  - replace (Z.min n (i + max_lines) =? n)%Z with false.
    2:{ symmetry. apply Z.eqb_neq. lia. }
    rewrite (checked_Some (i + step)) by (unfold int_min; lia).
    by destruct (chunk_loop fuel lines max_lines step (i + step)).
Qed.

Lemma getlines_nil (text : string) : getlines text = [] → text = "".
Proof.
  destruct text as [|c rest]; [done|]. cbn [getlines].
  destruct (Ascii.eqb c newline); [done|]. by destruct (getlines rest).
Qed.

(** Outside the empty text the function is its loop from index 0. *)
Lemma chunk_code_lines_loop (text : string) (max_lines overlap : Z) :
  text ≠ "" → (int_min ≤ max_lines - overlap ≤ int_max)%Z →
  chunk_code_lines text max_lines overlap =
    chunk_loop (S (length (getlines text))) (getlines text) max_lines
      (Z.max 1 (max_lines - overlap)) 0.
Proof.
  intros Ht Hd. unfold chunk_code_lines. rewrite (checked_Some _ Hd).
  destruct (getlines text) eqn:E; [|done]. by apply getlines_nil in E.
Qed.

(** The chunks from index [i] on: one every [step] lines, each of
    [max_lines] lines or of what is left of the file. *)
Lemma chunk_loop_formula (lines : list string) (max_lines step : Z) :
  let n := Z.of_nat (length lines) in
  (1 ≤ max_lines ≤ int_max)%Z → (1 ≤ step ≤ max_lines)%Z → (2 * n ≤ int_max)%Z →
  ∀ (fuel : nat) (i : Z),
    (0 ≤ i < n)%Z → (i + max_lines ≤ int_max)%Z → (n - i ≤ Z.of_nat fuel)%Z →
    chunk_loop fuel lines max_lines step i =
      Some ((λ k, render (take (Z.to_nat max_lines)
                            (drop (Z.to_nat i + k * Z.to_nat step) lines)))
              <$> seq 0 (S (Z.to_nat ((n - i - max_lines + step - 1) / step)))).
Proof.
  intros n Hm Hs Hn. induction fuel as [|fuel IH]; intros i Hi Hw Hf; [lia|].
  rewrite chunk_loop_round by (fold n; lia). fold n. case_decide as Hd.
  - assert ((n - i - max_lines + step - 1) / step < 1)%Z as Hq
      by (apply Z.div_lt_upper_bound; lia).
    replace (Z.to_nat ((n - i - max_lines + step - 1) / step)) with 0%nat by lia.
    cbn [seq fmap list_fmap]. by rewrite Nat.add_0_r.
  - rewrite IH by lia.
    replace (n - i - max_lines + step - 1)%Z
      with ((n - (i + step) - max_lines + step - 1) + 1 * step)%Z by lia.
    rewrite Z.div_add by lia.
    assert (0 ≤ (n - (i + step) - max_lines + step - 1) / step)%Z as Hq
      by (apply Z.div_pos; lia).
    set (q := ((n - (i + step) - max_lines + step - 1) / step)%Z) in *.
    replace (Z.to_nat (q + 1)) with (S (Z.to_nat q)) by lia.
    change (seq 0 (S (S (Z.to_nat q)))) with (0%nat :: seq 1 (S (Z.to_nat q))).
    rewrite <- fmap_S_seq, fmap_cons, <- list_fmap_compose.
    rewrite Nat.mul_0_l, Nat.add_0_r. cbn [fmap option_fmap option_map].
    do 2 f_equal. apply list_fmap_ext. intros _ k _. cbn [compose].
    do 3 f_equal. lia.
Qed.

(** X22: the chunks, for a window of at least one line and sizes an
    [int] holds: with [step] the larger of 1 and [max_lines - overlap],
    chunk number [k] is written from the [max_lines] lines that start at
    line [k * step], or from what is left of the file there, and the
    file of [n] lines gives one chunk and one more for every [step]
    lines, or part of it, beyond the first [max_lines]. *)
Theorem chunk_code_lines_windows (text : string) (max_lines overlap : Z) :
  let lines := getlines text in
  let n := Z.of_nat (length lines) in
  let step := Z.max 1 (max_lines - overlap) in
  text ≠ "" →
  (1 ≤ max_lines ≤ int_max)%Z → (0 ≤ overlap ≤ int_max)%Z → (2 * n ≤ int_max)%Z →
  chunk_code_lines text max_lines overlap =
    Some ((λ k, render (take (Z.to_nat max_lines) (drop (k * Z.to_nat step) lines)))
            <$> seq 0 (S (Z.to_nat ((n - max_lines + step - 1) / step)))).
Proof.
  intros lines n step Ht Hm Ho Hn.
  assert (lines ≠ []) as Hl by (intros E; by apply getlines_nil in E).
  assert (0 < n)%Z as Hpos by (subst n; destruct lines; [done|simpl; lia]).
  rewrite chunk_code_lines_loop by (unfold int_min in *; unfold int_max in *; lia || done).
  fold lines step.
  rewrite (chunk_loop_formula lines max_lines step) by (fold n; lia).
  fold n. by rewrite Z.sub_0_r.
Qed.

(** The windows of lines behind the chunks from index [i] on. *)
Lemma chunk_loop_cover (lines : list string) (max_lines step : Z) :
  let n := Z.of_nat (length lines) in
  let keep := Z.to_nat (max_lines - step) in
  (1 ≤ max_lines ≤ int_max)%Z → (1 ≤ step ≤ max_lines)%Z → (2 * n ≤ int_max)%Z →
  ∀ (fuel : nat) (i : Z),
    (0 ≤ i < n)%Z → (i + max_lines ≤ int_max)%Z → (n - i ≤ Z.of_nat fuel)%Z →
    ∃ gs,
      let g := take (Z.to_nat max_lines) (drop (Z.to_nat i) lines) in
      chunk_loop fuel lines max_lines step i = Some (render <$> g :: gs) ∧
      g ++ concat (drop keep <$> gs) = drop (Z.to_nat i) lines ∧
      Forall (λ g', (keep < length g' ≤ Z.to_nat max_lines)%nat) gs.
Proof.
  intros n keep Hm Hs Hn. induction fuel as [|fuel IH]; intros i Hi Hw Hf; [lia|].
  rewrite chunk_loop_round by (fold n; lia). fold n. case_decide as Hd.
  - exists []. cbv zeta. split; [done|]. split; [|done].
    rewrite app_nil_r. apply take_ge. rewrite length_drop. lia.
  - destruct (IH (i + step)%Z) as (gs & Hloop & Hcat & Hall); [lia..|].
    cbv zeta in Hloop, Hcat.
    set (g' := take (Z.to_nat max_lines) (drop (Z.to_nat (i + step)) lines)) in *.
    assert (keep < length g' ≤ Z.to_nat max_lines)%nat as Hg'.
    { unfold g'. rewrite window_length. lia. }
    exists (g' :: gs). cbv zeta. rewrite Hloop. split; [done|].
    split; [|by constructor].
    rewrite fmap_cons. cbn [concat].
    rewrite <- (take_drop (Z.to_nat max_lines) (drop (Z.to_nat i) lines)) at 2.
    f_equal. rewrite drop_drop.
    replace (Z.to_nat i + Z.to_nat max_lines)%nat
      with (Z.to_nat (i + step) + keep)%nat by lia.
    rewrite <- drop_drop, <- Hcat. rewrite drop_app_le by lia. done.
Qed.

(** X23: no line is lost and none is out of place.  For a window of at
    least one line and sizes an [int] holds, the chunks are written from
    windows of at least 1 and at most [max_lines] lines; consecutive
    windows share [keep] lines, the smaller of [overlap] and
    [max_lines - 1]; every window after the first is longer than that,
    so it brings a new line; and the first window followed by what the
    others add is the file, line by line. *)
Theorem chunk_code_lines_covers (text : string) (max_lines overlap : Z) :
  let keep := Z.to_nat (Z.min overlap (max_lines - 1)) in
  text ≠ "" →
  (1 ≤ max_lines ≤ int_max)%Z → (0 ≤ overlap ≤ int_max)%Z →
  (2 * Z.of_nat (length (getlines text)) ≤ int_max)%Z →
  ∃ groups,
    chunk_code_lines text max_lines overlap = Some (render <$> groups) ∧
    stitch keep groups = getlines text ∧
    Forall (λ g, (1 ≤ length g ≤ Z.to_nat max_lines)%nat) groups ∧
    Forall (λ g, (keep < length g)%nat) (tail groups).
Proof.
  intros keep Ht Hm Ho Hn.
  set (lines := getlines text) in *.
  assert (lines ≠ []) as Hl by (intros E; by apply getlines_nil in E).
  assert (0 < length lines)%nat as Hpos by (destruct lines; [done|simpl; lia]).
  rewrite chunk_code_lines_loop by (unfold int_min in *; unfold int_max in *; lia || done).
  fold lines.
  destruct (chunk_loop_cover lines max_lines (Z.max 1 (max_lines - overlap))
              ltac:(lia) ltac:(lia) ltac:(lia) (S (length lines)) 0%Z)
    as (gs & Hloop & Hcat & Hall); [lia..|].
  cbv zeta in Hloop, Hcat.
  replace (Z.to_nat (max_lines - Z.max 1 (max_lines - overlap))) with keep in * by lia.
  change (Z.to_nat 0) with 0%nat in *. rewrite drop_0 in *.
  exists (take (Z.to_nat max_lines) lines :: gs).
  split; [exact Hloop|]. split; [exact Hcat|]. split.
  - constructor; [rewrite length_take; lia|].
    eapply Forall_impl; [exact Hall|]. intros g Hg. simpl in Hg. lia.
  - eapply Forall_impl; [exact Hall|]. intros g Hg. simpl in Hg. lia.
Qed.

(** With no line in a window nothing is written, round after round. *)
Lemma chunk_loop_no_window (lines : list string) (max_lines : Z) :
  let n := Z.of_nat (length lines) in
  (int_min ≤ max_lines ≤ 0)%Z → (n ≤ int_max)%Z →
  ∀ (fuel : nat) (i : Z),
    (0 ≤ i ≤ n)%Z → (n - i < Z.of_nat fuel)%Z →
    chunk_loop fuel lines max_lines 1 i = Some [].
Proof.
  intros n Hm Hn. induction fuel as [|fuel IH]; intros i Hi Hf; [lia|].
  cbn [chunk_loop]. fold n. rewrite (to_int_small n) by lia.
  destruct (Z.ltb_spec i n) as [Hlt|Hge]; [|done].
  rewrite (checked_Some (i + max_lines)) by lia. cbv zeta.
  replace (slice i (Z.min n (i + max_lines)) lines) with (@nil string).
  2:{ unfold slice. by replace (Z.to_nat (Z.min n (i + max_lines) - i)) with 0%nat by lia. }
  cbn [render foldr String.eqb].
  replace (Z.min n (i + max_lines) =? n)%Z with false
    by (symmetry; apply Z.eqb_neq; lia).
  rewrite (checked_Some (i + 1)) by (unfold int_min; lia).
  by rewrite IH by lia.
Qed.

(** X24: when nothing is written.  The empty text gives no chunk,
    whatever the sizes; and a window of no line ([max_lines] zero or
    negative) gives no chunk for any text: the call is not refused, the
    file simply leaves nothing behind. *)
Theorem chunk_code_lines_no_window (text : string) (max_lines overlap : Z) :
  text = "" ∨
  ((int_min ≤ max_lines ≤ 0)%Z ∧ (0 ≤ overlap ≤ int_max)%Z ∧
   (int_min ≤ max_lines - overlap)%Z ∧
   (Z.of_nat (length (getlines text)) ≤ int_max)%Z) →
  chunk_code_lines text max_lines overlap = Some [].
Proof.
  intros [->|(Hm & Ho & Hd & Hn)]; [done|].
  destruct (decide (text = "")) as [->|Ht]; [done|].
  rewrite chunk_code_lines_loop by (unfold int_max; lia || done).
  rewrite Z.max_l by lia.
  apply chunk_loop_no_window; lia.
Qed.

Lemma getlines_cons (c : ascii) (rest : string) :
  getlines (String c rest) =
    if Ascii.eqb c newline then "" :: getlines rest
    else match getlines rest with
         | [] => [String c ""]
         | line :: lines => String c line :: lines
         end.
Proof. done. Qed.

Lemma getlines_last (t : string) (c : ascii) :
  c ≠ newline →
  getlines (t +:+ String c "") = getlines (t +:+ String c (String newline "")).
Proof.
  intros Hc. apply Ascii.eqb_neq in Hc.
  induction t as [|x t IH].
  - change (getlines (String c "") = getlines (String c (String newline ""))).
    rewrite !getlines_cons, Hc. done.
  - change (getlines (String x (t +:+ String c "")) =
            getlines (String x (t +:+ String c (String newline "")))).
    by rewrite !getlines_cons, IH.
Qed.

Lemma render_getlines (t : string) :
  render (getlines (t +:+ String newline "")) = t +:+ String newline "".
Proof.
  induction t as [|x t IH]; [done|].
  change (render (getlines (String x (t +:+ String newline ""))) =
          String x (t +:+ String newline "")).
  rewrite getlines_cons. destruct (Ascii.eqb_spec x newline) as [->|Hx].
  - change (String newline (render (getlines (t +:+ String newline ""))) =
            String newline (t +:+ String newline "")).
    by rewrite IH.
  - destruct (getlines (t +:+ String newline "")) as [|line lines].
    + by destruct t.
    + rewrite <- IH. done.
Qed.

Lemma render_concat (gs : list (list string)) :
  foldr String.append "" (render <$> gs) = render (concat gs).
Proof.
  induction gs as [|g gs IH]; [done|].
  cbn [fmap list_fmap foldr concat]. rewrite render_app. f_equal. exact IH.
Qed.

(** X25: a last line without its newline is read like one with it: the
    chunks of a text that ends in another character are those of the
    text with a newline added, for every window and overlap. *)
Theorem chunk_code_lines_last_line (t : string) (c : ascii) (max_lines overlap : Z) :
  c ≠ newline →
  chunk_code_lines (t +:+ String c "") max_lines overlap =
  chunk_code_lines (t +:+ String c (String newline "")) max_lines overlap.
Proof.
  intros Hc. unfold chunk_code_lines. by rewrite (getlines_last t c Hc).
Qed.

(** X26: a file that fits in one window comes back whole.  When the
    text ends in a newline and has at most [max_lines] lines, there is
    one chunk and it is the text, whatever the overlap. *)
Theorem chunk_code_lines_whole_file (t : string) (max_lines overlap : Z) :
  let text := t +:+ String newline "" in
  (Z.of_nat (length (getlines text)) ≤ max_lines ≤ int_max)%Z →
  (0 ≤ overlap ≤ int_max)%Z →
  chunk_code_lines text max_lines overlap = Some [text].
Proof.
  intros text Hm Ho.
  assert (text ≠ "") as Ht by (subst text; by destruct t).
  assert (getlines text ≠ []) as Hl by (intros E; by apply getlines_nil in E).
  assert (0 < length (getlines text))%nat as Hpos
    by (destruct (getlines text); [done|simpl; lia]).
  rewrite chunk_code_lines_loop by (unfold int_min in *; unfold int_max in *; lia || done).
  rewrite chunk_loop_round by lia.
  rewrite decide_True by lia. rewrite drop_0, take_ge by lia.
  subst text. by rewrite render_getlines.
Qed.

(** X27: without overlap the chunks cut the file and lose nothing: for
    a text that ends in a newline, a window of at least one line and
    sizes an [int] holds, the chunks of [overlap = 0] put end to end are
    the text. *)
Theorem chunk_code_lines_round_trip (t : string) (max_lines : Z) :
  let text := t +:+ String newline "" in
  (1 ≤ max_lines ≤ int_max)%Z →
  (2 * Z.of_nat (length (getlines text)) ≤ int_max)%Z →
  ∃ chunks,
    chunk_code_lines text max_lines 0 = Some chunks ∧
    foldr String.append "" chunks = text.
Proof.
  intros text Hm Hn.
  assert (text ≠ "") as Ht by (subst text; by destruct t).
  assert (getlines text ≠ []) as Hl by (intros E; by apply getlines_nil in E).
  assert (0 < length (getlines text))%nat as Hpos
    by (destruct (getlines text); [done|simpl; lia]).
  rewrite chunk_code_lines_loop by (unfold int_min in *; unfold int_max in *; lia || done).
  destruct (chunk_loop_cover (getlines text) max_lines (Z.max 1 (max_lines - 0))
              ltac:(lia) ltac:(lia) ltac:(lia) (S (length (getlines text))) 0%Z)
    as (gs & Hloop & Hcat & _); [lia..|].
  cbv zeta in Hloop, Hcat.
  replace (Z.to_nat (max_lines - Z.max 1 (max_lines - 0))) with 0%nat in Hcat by lia.
  change (Z.to_nat 0) with 0%nat in *. rewrite drop_0 in *.
  eexists. split; [exact Hloop|].
  rewrite render_concat. cbn [concat].
  replace gs with (drop 0 <$> gs) at 1.
  2:{ clear. induction gs as [|g gs IH]; [done|]. by rewrite fmap_cons, IH. }
  rewrite Hcat. subst text. apply render_getlines.
Qed.

Lemma chunk_code_lines_windows_witness :
  chunk_code_lines (render ["a"; "b"; "c"; "d"; "e"]) 3 1 =
    Some [render ["a"; "b"; "c"]; render ["c"; "d"; "e"]].
Proof.
  refine (chunk_code_lines_windows (render ["a"; "b"; "c"; "d"; "e"]) 3 1 _ _ _ _).
  - discriminate.
  - unfold int_max. lia.
  - unfold int_max. lia.
  - vm_compute. discriminate.
Defined.

Lemma chunk_code_lines_covers_witness :
  ∃ groups,
    chunk_code_lines (render ["a"; "b"; "c"; "d"; "e"]) 3 1 = Some (render <$> groups) ∧
    stitch 1 groups = ["a"; "b"; "c"; "d"; "e"].
Proof.
  destruct (chunk_code_lines_covers (render ["a"; "b"; "c"; "d"; "e"]) 3 1)
    as (groups & H1 & H2 & _).
  - discriminate.
  - unfold int_max. lia.
  - unfold int_max. lia.
  - vm_compute. discriminate.
  - exists groups. split; [exact H1 | exact H2].
Defined.

Lemma chunk_code_lines_no_window_witness :
  chunk_code_lines (render ["a"; "b"; "c"]) 0 0 = Some [] ∧
  chunk_code_lines (render ["a"; "b"; "c"]) (-5) 2 = Some [].
Proof.
  split; apply chunk_code_lines_no_window; right; vm_compute; intuition discriminate.
Defined.

Lemma chunk_code_lines_last_line_witness :
  chunk_code_lines "a;b" 120 20 = chunk_code_lines (render ["a;b"]) 120 20.
Proof.
  refine (chunk_code_lines_last_line "a;" "b" 120 20 _). discriminate.
Defined.

Lemma chunk_code_lines_whole_file_witness :
  chunk_code_lines (render ["a"; "b"; "c"]) 120 20 = Some [render ["a"; "b"; "c"]].
Proof.
  refine (chunk_code_lines_whole_file (String "a" (String newline (String "b" (String newline "c")))) 120 20 _ _).
  - vm_compute. intuition discriminate.
  - unfold int_max. lia.
Defined.

Lemma chunk_code_lines_round_trip_witness :
  ∃ chunks,
    chunk_code_lines (render ["a"; "b"; "c"]) 2 0 = Some chunks ∧
    foldr String.append "" chunks = render ["a"; "b"; "c"].
Proof.
  refine (chunk_code_lines_round_trip (String "a" (String newline (String "b" (String newline "c")))) 2 _ _).
  - unfold int_max. lia.
  - vm_compute. discriminate.
Defined.

End Chunker.
